(** * kro graph builder: naming validation, expression extraction, CRD defaults

    A shallow embedding of

    - [internal/graph/validation.go]   (module [Graph]),
    - [internal/graph/parser/parser.go] (module [Parser]),
    - the CRD default status schema and printer columns (module [Crd]),

    together with the properties the specification states about them.

    Go strings are byte strings and are modelled by [string] (a list of
    8-bit [ascii]).  A Go [error] is [None] for [nil] and [Some msg] for an
    error whose [Error()] text is [msg]. *)

From Stdlib Require Import Ascii DecimalString.
From stdpp Require Import base list strings gmap.

(** ** Byte-string helpers shared by the modules *)

Module Str.

(** The double quote character, the backslash and friends. *)
Definition dquote : ascii := "034"%char.
Definition backslash : ascii := "092"%char.

Definition char (c : ascii) : string := String c "".

Definition code (c : ascii) : N := N_of_ascii c.

(** [lo <= c <= hi] on byte values. *)
Definition in_range (lo hi c : ascii) : bool :=
  (code lo <=? code c)%N && (code c <=? code hi)%N.

Fixpoint to_list (s : string) : list ascii :=
  match s with
  | EmptyString => []
  | String c s' => c :: to_list s'
  end.

Fixpoint of_list (l : list ascii) : string :=
  match l with
  | [] => EmptyString
  | c :: l' => String c (of_list l')
  end.

(** [strings.Contains(s, string(c))] for a one-byte needle. *)
Fixpoint contains_char (c : ascii) (s : string) : bool :=
  match s with
  | EmptyString => false
  | String d s' => if decide (c = d) then true else contains_char c s'
  end.

(** [strings.HasPrefix]. *)
Fixpoint has_prefix (p s : string) : bool :=
  match p, s with
  | EmptyString, _ => true
  | String a p', String b s' => if decide (a = b) then has_prefix p' s' else false
  | String _ _, EmptyString => false
  end.

(** Leading bytes of [s] that belong to [cutset] are dropped. *)
Fixpoint trim_left (cutset : string) (s : string) : string :=
  match s with
  | EmptyString => EmptyString
  | String c s' => if contains_char c cutset then trim_left cutset s' else s
  end.

Definition trim_right (cutset : string) (s : string) : string :=
  String.rev (trim_left cutset (String.rev s)).

(** [strings.Trim(s, cutset)] for an ASCII cutset: every leading and every
    trailing byte contained in [cutset] is removed. *)
Definition Trim (s cutset : string) : string :=
  trim_right cutset (trim_left cutset s).

(** [strings.Join]. *)
Fixpoint join (sep : string) (l : list string) : string :=
  match l with
  | [] => ""
  | [x] => x
  | x :: l' => x +:+ sep +:+ join sep l'
  end.

(** The [%d] verb on a non-negative index. *)
Definition of_nat (n : nat) : string := NilZero.string_of_uint (Nat.to_uint n).

(** The [%v] verb on a [[]string]: [[a b c]]. *)
Definition fmt_strings (l : list string) : string := "[" +:+ join " " l +:+ "]".

End Str.

(** ** internal/graph/validation.go *)

Module Graph.

(** *** A small regular-expression engine

    The naming patterns are anchored on both sides ([^...$]), so
    [MatchString] decides whether the whole text belongs to the language
    of the pattern body.  Bodies are built from byte classes,
    concatenation, alternation and iteration; matching is by Brzozowski
    derivatives. *)

Inductive regex :=
| Void                                   (* matches nothing *)
| Eps                                    (* the empty text *)
| Class (ranges : list (ascii * ascii))  (* [a-zA-Z0-9] *)
| Cat (r1 r2 : regex)
| Alt (r1 r2 : regex)
| Star (r : regex).

Definition in_class (ranges : list (ascii * ascii)) (c : ascii) : bool :=
  existsb (λ r, Str.in_range r.1 r.2 c) ranges.

Fixpoint nullable (r : regex) : bool :=
  match r with
  | Void => false
  | Eps => true
  | Class _ => false
  | Cat r1 r2 => nullable r1 && nullable r2
  | Alt r1 r2 => nullable r1 || nullable r2
  | Star _ => true
  end.

Fixpoint deriv (c : ascii) (r : regex) : regex :=
  match r with
  | Void => Void
  | Eps => Void
  | Class rs => if in_class rs c then Eps else Void
  | Cat r1 r2 =>
      if nullable r1 then Alt (Cat (deriv c r1) r2) (deriv c r2)
      else Cat (deriv c r1) r2
  | Alt r1 r2 => Alt (deriv c r1) (deriv c r2)
  | Star r1 => Cat (deriv c r1) (Star r1)
  end.

(** [re.MatchString(s)] for the anchored pattern [^r$]. *)
Fixpoint MatchString (r : regex) (s : string) : bool :=
  match s with
  | EmptyString => nullable r
  | String c s' => MatchString (deriv c r) s'
  end.

Definition lower : list (ascii * ascii) := [("a", "z")]%char.
Definition upper : list (ascii * ascii) := [("A", "Z")]%char.
Definition alnum : list (ascii * ascii) := [("a", "z"); ("A", "Z"); ("0", "9")]%char.

(** [^[a-z][a-zA-Z0-9]*$] *)
Definition lowerCamelCaseRegex : regex := Cat (Class lower) (Star (Class alnum)).
(** [^[A-Z][a-zA-Z0-9]*$] *)
Definition upperCamelCaseRegex : regex := Cat (Class upper) (Star (Class alnum)).

Definition ErrNamingConvention : string := "naming convention violation".

Definition reservedKeyWords : list string :=
  [ "apiVersion"; "context"; "dependency"; "dependencies"; "externalRef";
    "externalReference"; "externalRefs"; "externalReferences"; "graph";
    "instance"; "kind"; "metadata"; "namespace"; "object"; "resource";
    "resourcegroup"; "resources"; "runtime"; "serviceAccountName"; "spec";
    "status"; "kro"; "variables"; "vars"; "version" ].

Definition isValidResourceID (id : string) : bool :=
  MatchString lowerCamelCaseRegex id.

Definition isValidKindName (name : string) : bool :=
  MatchString upperCamelCaseRegex name.

Fixpoint isKROReservedWord_loop (ws : list string) (word : string) : bool :=
  match ws with
  | [] => false
  | w :: ws' => if decide (w = word) then true else isKROReservedWord_loop ws' word
  end.

Definition isKROReservedWord (word : string) : bool :=
  isKROReservedWord_loop reservedKeyWords word.

(** The parts of [v1alpha1.ResourceGroup] that the validation reads:
    [rg.Spec.Schema.Kind] and the [ID] of every entry of
    [rg.Spec.Resources]. *)
Record Resource := { ID : string }.
Record Schema := { Kind : string }.
Record ResourceGroupSpec := { Schema_ : Schema; Resources : list Resource }.
Record ResourceGroup := { Spec : ResourceGroupSpec }.

Definition error := option string.

(** The loop of [validateResourceIDs]; [seen] is the set of ids met so far. *)
Fixpoint validateResourceIDs_loop (seen : gset string) (rs : list Resource) : error :=
  match rs with
  | [] => None
  | res :: rs' =>
      if isKROReservedWord (ID res) then
        Some ("id " +:+ ID res +:+ " is a reserved keyword in KRO")
      else if negb (isValidResourceID (ID res)) then
        Some ("id " +:+ ID res +:+ " is not a valid KRO resource id: must be lower camelCase")
      else if decide (ID res ∈ seen) then
        Some ("found duplicate resource IDs " +:+ ID res)
      else validateResourceIDs_loop ({[ ID res ]} ∪ seen) rs'
  end.

Definition validateResourceIDs (rg : ResourceGroup) : error :=
  validateResourceIDs_loop ∅ (Resources (Spec rg)).

Definition validateResourceGroupNamingConventions (rg : ResourceGroup) : error :=
  if negb (isValidKindName (Kind (Schema_ (Spec rg)))) then
    Some (ErrNamingConvention +:+ ": kind '" +:+ Kind (Schema_ (Spec rg))
          +:+ "' is not a valid KRO kind name: must be UpperCamelCase")
  else
    match validateResourceIDs rg with
    | Some err => Some (ErrNamingConvention +:+ ": " +:+ err)
    | None => None
    end.

End Graph.

(** ** The CRD defaults of the synthesized kind *)

Module Crd.

(** The fields of [extv1.JSONSchemaProps] that the defaults set.  [Items]
    is the pointer to a [JSONSchemaPropsOrArray] whose [Schema] pointer is
    set; both are constants, so they are kept by value. *)
#[warnings="-register-all"]
Inductive JSONSchemaProps := mkJSONSchemaProps {
  Type_ : string;
  Items : option JSONSchemaProps;
  Properties : gmap string JSONSchemaProps }.

Record CustomResourceColumnDefinition := {
  Name : string;
  Description : string;
  Priority : Z;
  ColumnType : string;
  JSONPath : string }.

Definition scalar (ty : string) : JSONSchemaProps :=
  {| Type_ := ty; Items := None; Properties := ∅ |}.

Definition defaultStateType : JSONSchemaProps := scalar "string".

Definition defaultConditionsType : JSONSchemaProps :=
  {| Type_ := "array";
     Items := Some
       {| Type_ := "object";
          Items := None;
          Properties := list_to_map
            [ ("type", scalar "string");
              ("status", scalar "string");
              ("reason", scalar "string");
              ("message", scalar "string");
              ("lastTransitionTime", scalar "string");
              ("observedGeneration", scalar "integer") ] |};
     Properties := ∅ |}.

Definition defaultAdditionalPrinterColumns : list CustomResourceColumnDefinition :=
  [ {| Name := "State";
       Description := "The state of a ResourceGroup instance";
       Priority := 0;
       ColumnType := "string";
       JSONPath := ".status.state" |};
    {| Name := "Synced";
       Description := "Whether a ResourceGroup instance have all it's subresources ready";
       Priority := 0;
       ColumnType := "string";
       JSONPath := ".status.conditions[?(@.type==" +:+ Str.char Str.dquote
                   +:+ "InstanceSynced" +:+ Str.char Str.dquote +:+ ")].status" |};
    {| Name := "Age";
       Description := "Age of the resource";
       Priority := 0;
       ColumnType := "date";
       JSONPath := ".metadata.creationTimestamp" |} ].

End Crd.

(** ** internal/graph/parser/parser.go *)

Module Parser.

(** *** Results

    A call returns normally with a value, returns a Go [error], or panics
    at run time (index out of range, failed type assertion). *)

Inductive outcome (A : Type) :=
| Ok (a : A)
| Err (msg : string)
| Panic (msg : string).
Global Arguments Ok {A} a.
Global Arguments Err {A} msg.
Global Arguments Panic {A} msg.

(** *** Documents

    A decoded document is an [interface{}]: [nil], a
    [map[string]interface{}], a [[]interface{}], a [string] or a scalar of
    some other dynamic type.  The parser ranges over maps, and Go leaves
    the iteration order of a map unspecified, so a map is given by its
    entries in the order in which the [range] statement of one run visits
    them; [same_document] below relates the listings of one and the same
    Go value. *)

#[warnings="-register-all"]
Inductive value :=
| VNil
| VMap (entries : list (string * value))
| VSlice (items : list value)
| VString (s : string)
| VBool (b : bool)
| VInt (n : Z)
| VInt32 (n : Z)
| VInt64 (n : Z)
| VFloat64 (bits : Z)
| VOther (type_name : string).

(** The [%T] verb. *)
Definition typeName (v : value) : string :=
  match v with
  | VNil => "<nil>"
  | VMap _ => "map[string]interface {}"
  | VSlice _ => "[]interface {}"
  | VString _ => "string"
  | VBool _ => "bool"
  | VInt _ => "int"
  | VInt32 _ => "int32"
  | VInt64 _ => "int64"
  | VFloat64 _ => "float64"
  | VOther t => t
  end.

(** *** Schemas and the store

    [spec.Schema] values are reached through pointers and
    [validateSchema] writes through them, so schemas live in a store:
    a location is an index into the list of allocated cells, and [None]
    is the [nil] pointer.  Only the fields the parser reads are kept.
    [AdditionalProperties] and [Items] are pointers to small structs that
    are never written; they are kept by value, their own [Schema] field
    stays a pointer. *)

Abbreviation loc := nat.

Record SchemaOrBool := { Allows : bool; SchemaOrBool_Schema : option loc }.
Record SchemaOrArray := { SchemaOrArray_Schema : option loc }.

#[warnings="-register-all"]
Inductive Schema := mkSchema {
  Type_ : list string;
  OneOf : list Schema;
  AdditionalProperties : option SchemaOrBool;
  Properties : gmap string Schema;
  Items : option SchemaOrArray;
  Extensions : gmap string value }.

(** [spec.Schema{}] *)
Definition emptySchema : Schema :=
  {| Type_ := []; OneOf := []; AdditionalProperties := None;
     Properties := ∅; Items := None; Extensions := ∅ |}.

(** [schema.Type = ty] *)
Definition set_Type (ty : list string) (s : Schema) : Schema :=
  {| Type_ := ty; OneOf := OneOf s;
     AdditionalProperties := AdditionalProperties s;
     Properties := Properties s; Items := Items s;
     Extensions := Extensions s |}.

Abbreviation store := (list Schema).

(** [variable.FieldDescriptor] *)
Record FieldDescriptor := {
  Path : string;
  Expressions : list string;
  ExpectedType : string;
  ExpectedSchema : option loc;
  StandaloneExpression : bool }.

(** *** Computations over the store *)

Definition M (A : Type) : Type := store → store * outcome A.

Definition ret {A} (a : A) : M A := λ σ, (σ, Ok a).
Definition fail {A} (msg : string) : M A := λ σ, (σ, Err msg).
Definition panic {A} (msg : string) : M A := λ σ, (σ, Panic msg).
Definition bind {A B} (m : M A) (k : A → M B) : M B :=
  λ σ, match m σ with
       | (σ', Ok a) => k a σ'
       | (σ', Err e) => (σ', Err e)
       | (σ', Panic e) => (σ', Panic e)
       end.
Definition lift {A} (o : outcome A) : M A := λ σ, (σ, o).

Global Instance M_ret : MRet M := @ret.
Global Instance M_bind : MBind M := λ A B k m, bind m k.

Definition nil_dereference : string :=
  "invalid memory address or nil pointer dereference".
Definition index_out_of_range : string :=
  "index out of range [0] with length 0".

(** [*p]; a location outside the store is treated like [nil]. *)
Definition load (p : loc) : M Schema :=
  λ σ, match σ !! p with
       | Some s => (σ, Ok s)
       | None => (σ, Panic nil_dereference)
       end.

(** [*p = s] *)
Definition write (p : loc) (s : Schema) : M () :=
  λ σ, (<[p := s]> σ, Ok ()).

(** [&s] for a fresh [s] *)
Definition alloc (s : Schema) : M loc :=
  λ σ, (σ ++ [s], Ok (length σ)).

Definition xKubernetesPreserveUnknownFields : string :=
  "x-kubernetes-preserve-unknown-fields".

(** *** [strconv.Quote], the [%q] verb

    Go quotes a string rune by rune, which on ASCII text is byte by byte:
    printable ASCII is copied, the quote and the backslash are escaped,
    and a control character is written with its short escape or as
    [\xNN].  The definition below is exact on ASCII text.  It copies a
    byte from 0x80 on, which is what Go does with the bytes of a
    printable rune, and not what Go does with a byte that is not valid
    UTF-8, written [\xNN], or with a rune that is not printable, written
    [\uNNNN].  The statements below evaluate [Quote] on ASCII names only;
    a statement about every name takes the verb as a parameter, see
    [Coverage.joinPathAndFieldNameWith]. *)

Definition hex_digit (n : N) : string :=
  Str.char (nth (N.to_nat n) (Str.to_list "0123456789abcdef") "0"%char).

Definition esc (s : string) : string := Str.char Str.backslash +:+ s.

Definition quote_byte (c : ascii) : string :=
  if decide (c = Str.dquote) then esc (Str.char Str.dquote)
  else if decide (c = Str.backslash) then esc (Str.char Str.backslash)
  else if Str.in_range " " "~" c then Str.char c
  else match Str.code c with
       | 7%N => esc "a"
       | 8%N => esc "b"
       | 12%N => esc "f"
       | 10%N => esc "n"
       | 13%N => esc "r"
       | 9%N => esc "t"
       | 11%N => esc "v"
       | n => if (n <? 128)%N
              then esc ("x" +:+ hex_digit (n / 16) +:+ hex_digit (n mod 16))
              else Str.char c
       end.

Fixpoint quote_body (s : string) : string :=
  match s with
  | EmptyString => ""
  | String c s' => quote_byte c +:+ quote_body s'
  end.

Definition Quote (s : string) : string :=
  Str.char Str.dquote +:+ quote_body s +:+ Str.char Str.dquote.

(** *** The parser *)

Definition joinPathAndFieldName (path fieldName : string) : string :=
  if bool_decide (fieldName = "") || Str.contains_char "." fieldName then
    path +:+ "[" +:+ Quote fieldName +:+ "]"
  else if decide (path = "") then fieldName
  else path +:+ "." +:+ fieldName.

Definition isInteger (v : value) : bool :=
  match v with
  | VInt _ | VInt64 _ | VInt32 _ => true
  | _ => false
  end.

Definition allows (s : Schema) : bool :=
  match AdditionalProperties s with
  | Some ap => Allows ap
  | None => false
  end.

Definition validateSchema (schema : option loc) (path : string) : M () :=
  match schema with
  | None => fail ("schema is nil for path " +:+ path)
  | Some p =>
      s ← load p;
      if decide (length (Type_ s) ≠ 1) then
        match OneOf s with
        | alt :: _ =>
            match Type_ alt with
            | t :: _ => write p (set_Type [t] s)
            | [] => panic index_out_of_range
            end
        | [] => fail ("found schema type that is not a single type: "
                      +:+ Str.fmt_strings (Type_ s))
        end
      else ret ()
  end.

Definition getExpectedType (schema : loc) : M string :=
  s ← load schema;
  match Type_ s with
  | [] => panic index_out_of_range
  | t :: _ =>
      if decide (t ≠ "") then ret t
      else if allows s then ret "any"
      else ret ""
  end.

Definition getFieldSchema (schema : loc) (field : string) : M loc :=
  s ← load schema;
  match Properties s !! field with
  | Some fieldSchema => alloc fieldSchema
  | None =>
      match AdditionalProperties s with
      | Some {| Allows := _; SchemaOrBool_Schema := Some q |} => ret q
      | Some {| Allows := true; SchemaOrBool_Schema := None |} => alloc emptySchema
      | _ => fail ("schema not found for field " +:+ field)
      end
  end.

Definition getArrayItemSchema (schema : loc) (path : string) : M loc :=
  s ← load schema;
  match Items s with
  | Some {| SchemaOrArray_Schema := Some q |} => ret q
  | _ =>
      match Items s with
      | Some {| SchemaOrArray_Schema := Some q |} =>
          item ← load q;
          if decide (0 < size (Properties item)) then
            alloc {| Type_ := ["object"]; OneOf := [];
                     AdditionalProperties := None;
                     Properties := Properties s;
                     Items := None; Extensions := ∅ |}
          else fail ("invalid array schema for path " +:+ path
                     +:+ ": neither Items.Schema nor Properties are defined")
      | _ => fail ("invalid array schema for path " +:+ path
                   +:+ ": neither Items.Schema nor Properties are defined")
      end
  end.

Section WithHelpers.

(** [isStandaloneExpression] and [extractExpressions] belong to another
    file of the package, and [fmtv] is the [%v] verb of [fmt] on a
    document value; the parser is parametric in them. *)
Variable isStandaloneExpression : string → outcome bool.
Variable extractExpressions : string → outcome (list string).
Variable fmtv : value → string.

Definition parseString (field : string) (schema : loc) (path expectedType : string)
  : M (list FieldDescriptor) :=
  ok ← lift (isStandaloneExpression field);
  if ok : bool then
    ret [ {| Expressions := [Str.Trim field "${}"];
             ExpectedType := expectedType;
             ExpectedSchema := Some schema;
             Path := path;
             StandaloneExpression := true |} ]
  else if bool_decide (expectedType ≠ "string") && bool_decide (expectedType ≠ "any") then
    fail ("expected string type or AdditionalProperties for path " +:+ path
          +:+ ", got " +:+ fmtv (VString field))
  else
    expressions ← lift (extractExpressions field);
    if decide (0 < length expressions) then
      ret [ {| Expressions := expressions;
               ExpectedType := expectedType;
               ExpectedSchema := None;
               Path := path;
               StandaloneExpression := false |} ]
    else ret [].

Definition parseScalarTypes (field : value) (path expectedType : string)
  : M (list FieldDescriptor) :=
  if decide (expectedType = "any") then ret []
  else if decide (expectedType = "number") then
    match field with
    | VFloat64 _ => ret []
    | _ => fail ("expected number type for path " +:+ path +:+ ", got " +:+ typeName field)
    end
  else if decide (expectedType = "integer") then
    if isInteger field then ret []
    else fail ("expected integer type for path " +:+ path +:+ ", got " +:+ typeName field)
  else if decide (expectedType = "boolean") then
    match field with
    | VBool _ => ret []
    | _ => fail ("expected boolean type for path " +:+ path +:+ ", got " +:+ typeName field)
    end
  else fail ("unexpected type for path " +:+ path +:+ ": " +:+ typeName field).

(** [for fieldName, value := range field { ... }] of [parseObject]. *)
Definition parseObject_range
    (parseResource : value → option loc → string → M (list FieldDescriptor))
    (schema : loc) (path : string)
  : list (string * value) → list FieldDescriptor → M (list FieldDescriptor) :=
  fix range (field : list (string * value)) (expressionsFields : list FieldDescriptor) :=
    match field with
    | [] => ret expressionsFields
    | (fieldName, value) :: rest =>
        λ σ,
        match getFieldSchema schema fieldName σ with
        | (σ1, Ok fieldSchema) =>
            match parseResource value (Some fieldSchema)
                    (joinPathAndFieldName path fieldName) σ1 with
            | (σ2, Ok fieldExpressions) =>
                range rest (expressionsFields ++ fieldExpressions) σ2
            | (σ2, Err e) => (σ2, Err e)
            | (σ2, Panic e) => (σ2, Panic e)
            end
        | (σ1, Err e) =>
            (σ1, Err ("error getting field schema for path " +:+ path +:+ "."
                      +:+ fieldName +:+ ": " +:+ e))
        | (σ1, Panic e) => (σ1, Panic e)
        end
    end.

Definition parseObject
    (parseResource : value → option loc → string → M (list FieldDescriptor))
    (field : list (string * value)) (schema : loc) (path expectedType : string)
  : M (list FieldDescriptor) :=
  s ← load schema;
  if bool_decide (expectedType ≠ "object") && negb (allows s) then
    fail ("expected object type or AdditionalProperties allowed for path " +:+ path
          +:+ ", got " +:+ fmtv (VMap field))
  else
    match (if decide (0 < size (Extensions s))
           then Extensions s !! xKubernetesPreserveUnknownFields
           else None) with
    | Some (VBool true) => ret []
    | Some (VBool false) | None => parseObject_range parseResource schema path field []
    | Some _ => panic "interface conversion: interface {} is not bool"
    end.

(** [for i, item := range field { ... }] of [parseArray]. *)
Definition parseArray_range
    (parseResource : value → option loc → string → M (list FieldDescriptor))
    (itemSchema : loc) (path : string)
  : list value → nat → list FieldDescriptor → M (list FieldDescriptor) :=
  fix range (field : list value) (i : nat) (expressionsFields : list FieldDescriptor) :=
    match field with
    | [] => ret expressionsFields
    | item :: rest =>
        λ σ,
        match parseResource item (Some itemSchema)
                (path +:+ "[" +:+ Str.of_nat i +:+ "]") σ with
        | (σ1, Ok itemExpressions) =>
            range rest (S i) (expressionsFields ++ itemExpressions) σ1
        | (σ1, Err e) => (σ1, Err e)
        | (σ1, Panic e) => (σ1, Panic e)
        end
    end.

Definition parseArray
    (parseResource : value → option loc → string → M (list FieldDescriptor))
    (field : list value) (schema : loc) (path expectedType : string)
  : M (list FieldDescriptor) :=
  if decide (expectedType ≠ "array") then
    fail ("expected array type for path " +:+ path +:+ ", got " +:+ fmtv (VSlice field))
  else
    itemSchema ← getArrayItemSchema schema path;
    parseArray_range parseResource itemSchema path field 0 [].

Fixpoint parseResource (resource : value) (schema : option loc) (path : string)
    {struct resource} : M (list FieldDescriptor) :=
  λ σ,
  match validateSchema schema path σ, schema with
  | (σ1, Ok _), Some p =>
      match getExpectedType p σ1 with
      | (σ2, Ok expectedType) =>
          match resource with
          | VMap field => parseObject parseResource field p path expectedType σ2
          | VSlice field => parseArray parseResource field p path expectedType σ2
          | VString field => parseString field p path expectedType σ2
          | VNil => (σ2, Ok [])
          | _ => parseScalarTypes resource path expectedType σ2
          end
      | (σ2, Err e) => (σ2, Err e)
      | (σ2, Panic e) => (σ2, Panic e)
      end
  | (σ1, Ok _), None => (σ1, Panic nil_dereference)
  | (σ1, Err e), _ => (σ1, Err e)
  | (σ1, Panic e), _ => (σ1, Panic e)
  end.

Definition ParseResource (resource : list (string * value)) (resourceSchema : option loc)
  : M (list FieldDescriptor) :=
  parseResource (VMap resource) resourceSchema "".

End WithHelpers.

End Parser.

(** ** The expression scanner *)

Module Scanner.
Import Parser.

Inductive state :=
| Outside
| Inside (depth : nat) (acc : string).

(** One pass over the text.  [acc] holds the bytes of the expression
    being read, last byte first; [found] the finished expressions, last
    one first. *)
Fixpoint scan (s : string) (st : state) (found : list string) : outcome (list string) :=
  match st, s with
  | Outside, EmptyString => Ok (reverse found)
  | Outside, String c1 EmptyString => Ok (reverse found)
  | Outside, String c1 (String c2 s' as s1) =>
      if bool_decide (c1 = "$"%char) && bool_decide (c2 = "{"%char)
      then scan s' (Inside 0 "") found
      else scan s1 Outside found
  | Inside _ _, EmptyString => Err "incomplete expression: missing closing brace"
  | Inside depth acc, String c s' =>
      if bool_decide (c = "{"%char) then scan s' (Inside (S depth) (String c acc)) found
      else if bool_decide (c = "}"%char) then
        match depth with
        | 0 => scan s' Outside (String.rev acc :: found)
        | S d => scan s' (Inside d (String c acc)) found
        end
      else scan s' (Inside depth (String c acc)) found
  end.

(** Modelled from the spec: [extractExpressions] is not part of the
    parser file.  An expression is a fragment delimited by [${] and [}];
    the expressions of a text are returned in the order in which they
    occur, without their delimiters, and an opening delimiter that is
    never closed is a parse error.  Braces inside an expression are
    taken to be balanced, as in a map literal of the expression
    language. *)
Definition extractExpressions (s : string) : outcome (list string) :=
  scan s Outside [].

(** Modelled from the spec: [isStandaloneExpression] is not part of the
    parser file.  A text is a standalone expression when the entire
    string is a single [${...}]. *)
Definition isStandaloneExpression (s : string) : outcome bool :=
  match extractExpressions s with
  | Ok [e] => Ok (bool_decide (s = "${" +:+ e +:+ "}"))
  | Ok _ => Ok false
  | Err e => Err e
  | Panic e => Panic e
  end.

(** *** The [%v] verb

    [fmt] prints a string as it is, [nil] as [<nil>], a boolean as
    [true] or [false], an integer in decimal, a slice as its items
    between square brackets, and a map as [map[k:v ...]] with the keys
    in increasing order, whatever order the map is visited in.  The
    decimal form of a [float64] and the formatter of a value of another
    type are not modelled: such a value is printed as its type name
    between angle brackets, and no statement of this development renders
    one. *)

Definition fmt_int (n : Z) : string := NilZero.string_of_int (Z.to_int n).

Fixpoint insert_by_key (e : string * string) (l : list (string * string))
    : list (string * string) :=
  match l with
  | [] => [e]
  | x :: l' => if String.leb e.1 x.1 then e :: l else x :: insert_by_key e l'
  end.

Definition sort_by_key (l : list (string * string)) : list (string * string) :=
  foldr insert_by_key [] l.

Fixpoint fmtv (v : value) : string :=
  match v with
  | VNil => "<nil>"
  | VString s => s
  | VBool b => if b then "true" else "false"
  | VInt n | VInt32 n | VInt64 n => fmt_int n
  | VSlice items => "[" +:+ Str.join " " (fmtv <$> items) +:+ "]"
  | VMap entries =>
      "map["
      +:+ Str.join " "
            ((λ e : string * string, e.1 +:+ ":" +:+ e.2)
               <$> sort_by_key ((λ e : string * value, (e.1, fmtv e.2)) <$> entries))
      +:+ "]"
  | VFloat64 _ | VOther _ => "<" +:+ typeName v +:+ ">"
  end.

Definition parseResource := Parser.parseResource isStandaloneExpression extractExpressions fmtv.
Definition parseString := Parser.parseString isStandaloneExpression extractExpressions fmtv.
Definition ParseResource := Parser.ParseResource isStandaloneExpression extractExpressions fmtv.

End Scanner.

(** ** Reference definitions used by the statements *)

Module Reference.
Import Parser.

(** [getArrayItemSchema] without its second branch: the item schema is
    [schema.Items.Schema] when both [Items] and [Items.Schema] are set,
    and the invalid-array-schema error otherwise. *)
Definition getArrayItemSchema_simplified (schema : loc) (path : string) : M loc :=
  s ← load schema;
  match Items s with
  | Some {| SchemaOrArray_Schema := Some q |} => ret q
  | _ => fail ("invalid array schema for path " +:+ path
               +:+ ": neither Items.Schema nor Properties are defined")
  end.

(** A schema with the given type and nothing else. *)
Definition typed (ty : string) : Schema := set_Type [ty] emptySchema.

(** An object schema with the given properties and nothing else. *)
Definition objectOf (props : list (string * Schema)) : Schema :=
  {| Type_ := ["object"]; OneOf := []; AdditionalProperties := None;
     Properties := list_to_map props; Items := None; Extensions := ∅ |}.

(** [s] is a union schema: its [Type] list does not have exactly one
    element and [OneOf] is not empty. *)
Definition is_union (s : Schema) : Prop :=
  length (Type_ s) ≠ 1 ∧ OneOf s ≠ [].

(** The cell [s'] is [s] after the assignment
    [schema.Type = []string{schema.OneOf[0].Type[0]}]. *)
Definition union_overwrite (s s' : Schema) : Prop :=
  ∃ alt alts t ts,
    length (Type_ s) ≠ 1 ∧ OneOf s = alt :: alts ∧ Type_ alt = t :: ts
    ∧ s' = set_Type [t] s.

(** [s'] is [s] with the one-element list [[t]] for [Type]: every other
    field is the one of [s]. *)
Definition retyped (t : string) (s s' : Schema) : Prop :=
  Type_ s' = [t]
  ∧ OneOf s' = OneOf s
  ∧ AdditionalProperties s' = AdditionalProperties s
  ∧ Properties s' = Properties s
  ∧ Items s' = Items s
  ∧ Extensions s' = Extensions s.

(** Every cell allocated in [σ] is still there in [σ'], either untouched
    or with its [Type] overwritten as above. *)
Definition only_union_overwrites (σ σ' : store) : Prop :=
  ∀ l s, σ !! l = Some s →
    σ' !! l = Some s ∨ ∃ s', σ' !! l = Some s' ∧ union_overwrite s s'.

End Reference.

(** ** Documents as Go values, and what a run extracts from them *)

Module Pure.
Import Parser.

(** Two listings of the same document: maps hold the same entries, in
    any order; slices hold the same items in the same order. *)
#[warnings="-register-all"]
Inductive same_document : value → value → Prop :=
| same_refl v : same_document v v
| same_map m1 m m2 :
    m1 ≡ₚ m →
    Forall2 (λ e1 e2, e1.1 = e2.1 ∧ same_document e1.2 e2.2) m m2 →
    same_document (VMap m1) (VMap m2)
| same_slice l1 l2 :
    Forall2 same_document l1 l2 →
    same_document (VSlice l1) (VSlice l2).

(** A descriptor with its [ExpectedSchema] pointer followed: two runs
    take the address of different copies of a property schema, so
    descriptors are compared by the schema they point to. *)
Record Extracted := {
  ex_path : string;
  ex_expressions : list string;
  ex_type : string;
  ex_schema : option Schema;
  ex_standalone : bool }.

Definition extracted (σ : store) (d : FieldDescriptor) : Extracted :=
  {| ex_path := Path d;
     ex_expressions := Expressions d;
     ex_type := ExpectedType d;
     ex_schema := (p ← ExpectedSchema d; σ !! p);
     ex_standalone := StandaloneExpression d |}.

(** Both runs fail, or both succeed with the same results up to order. *)
Definition same_up_to_order {A} (o1 o2 : option (list A)) : Prop :=
  match o1, o2 with
  | Some l1, Some l2 => l1 ≡ₚ l2
  | None, None => True
  | _, _ => False
  end.

Definition successful (σ : store) (r : outcome (list FieldDescriptor))
    : option (list Extracted) :=
  match r with
  | Ok l => Some (extracted σ <$> l)
  | _ => None
  end.

(** No pointer of the store dangles: the [Schema] pointers held by a cell,
    and by the property schemas nested in it, are allocated. *)
Definition allocated (n : nat) (q : option loc) : Prop :=
  match q with
  | Some l => l < n
  | None => True
  end.

Inductive closed (n : nat) : Schema → Prop :=
| closed_schema s :
    (∀ ap, AdditionalProperties s = Some ap → allocated n (SchemaOrBool_Schema ap)) →
    (∀ it, Items s = Some it → allocated n (SchemaOrArray_Schema it)) →
    (∀ k fs, Properties s !! k = Some fs → closed n fs) →
    closed n s.

Definition closed_store (σ : store) : Prop :=
  ∀ l s, σ !! l = Some s → closed (length σ) s.

(** *** The extraction as a function of the document and the schema

    The traversal of [parseResource] with the store taken out: schemas are
    read in the store [σ0] the run started from, [validated] stands for the
    assignment of [validateSchema], and a failed run is [None]. *)

Definition to_option {A} (o : outcome A) : option A :=
  match o with
  | Ok a => Some a
  | _ => None
  end.

Definition validated (s : Schema) : option Schema :=
  if decide (length (Type_ s) ≠ 1) then
    match OneOf s with
    | alt :: _ =>
        match Type_ alt with
        | t :: _ => Some (set_Type [t] s)
        | [] => None
        end
    | [] => None
    end
  else Some s.

Definition expectedTypeOf (s : Schema) : option string :=
  match Type_ s with
  | [] => None
  | t :: _ => Some (if decide (t ≠ "") then t else if allows s then "any" else "")
  end.

Definition fieldSchemaOf (σ0 : store) (s : Schema) (field : string) : option Schema :=
  match Properties s !! field with
  | Some fieldSchema => Some fieldSchema
  | None =>
      match AdditionalProperties s with
      | Some {| Allows := _; SchemaOrBool_Schema := Some q |} => σ0 !! q
      | Some {| Allows := true; SchemaOrBool_Schema := None |} => Some emptySchema
      | _ => None
      end
  end.

Definition itemSchemaOf (σ0 : store) (s : Schema) : option Schema :=
  match Items s with
  | Some {| SchemaOrArray_Schema := Some q |} => σ0 !! q
  | _ => None
  end.

(** [Some true]: the object is opaque; [None]: the type assertion fails. *)
Definition preservesUnknownFields (s : Schema) : option bool :=
  match (if decide (0 < size (Extensions s))
         then Extensions s !! xKubernetesPreserveUnknownFields
         else None) with
  | Some (VBool b) => Some b
  | None => Some false
  | Some _ => None
  end.

Definition scalarAccepted (field : value) (expectedType : string) : bool :=
  if decide (expectedType = "any") then true
  else if decide (expectedType = "number") then
    match field with VFloat64 _ => true | _ => false end
  else if decide (expectedType = "integer") then isInteger field
  else if decide (expectedType = "boolean") then
    match field with VBool _ => true | _ => false end
  else false.

(** The results of [f] on the elements of [l], one after the other. *)
Definition collect {A B} (f : A → option (list B)) : list A → option (list B) :=
  fix go (l : list A) :=
    match l with
    | [] => Some []
    | a :: l' =>
        match f a, go l' with
        | Some x, Some y => Some (x ++ y)
        | _, _ => None
        end
    end.

Definition collect_indexed {A B} (f : nat → A → option (list B))
    : list A → nat → option (list B) :=
  fix go (l : list A) (i : nat) :=
    match l with
    | [] => Some []
    | a :: l' =>
        match f i a, go l' (S i) with
        | Some x, Some y => Some (x ++ y)
        | _, _ => None
        end
    end.

Section WithHelpers.
Variable isStandaloneExpression : string → outcome bool.
Variable extractExpressions : string → outcome (list string).

Definition extractString (field : string) (s : Schema) (path expectedType : string)
  : option (list Extracted) :=
  match to_option (isStandaloneExpression field) with
  | None => None
  | Some true =>
      Some [ {| ex_path := path;
                ex_expressions := [Str.Trim field "${}"];
                ex_type := expectedType;
                ex_schema := Some s;
                ex_standalone := true |} ]
  | Some false =>
      if bool_decide (expectedType ≠ "string") && bool_decide (expectedType ≠ "any")
      then None
      else
        match to_option (extractExpressions field) with
        | None => None
        | Some expressions =>
            if decide (0 < length expressions) then
              Some [ {| ex_path := path;
                        ex_expressions := expressions;
                        ex_type := expectedType;
                        ex_schema := None;
                        ex_standalone := false |} ]
            else Some []
        end
  end.

Fixpoint extract (σ0 : store) (resource : value) (schema : Schema) (path : string)
    {struct resource} : option (list Extracted) :=
  match validated schema with
  | None => None
  | Some s =>
      match expectedTypeOf s with
      | None => None
      | Some expectedType =>
          match resource with
          | VNil => Some []
          | VMap field =>
              if bool_decide (expectedType ≠ "object") && negb (allows s) then None
              else
                match preservesUnknownFields s with
                | None => None
                | Some true => Some []
                | Some false =>
                    collect
                      (λ e, match fieldSchemaOf σ0 s e.1 with
                            | Some fieldSchema =>
                                extract σ0 e.2 fieldSchema (joinPathAndFieldName path e.1)
                            | None => None
                            end)
                      field
                end
          | VSlice field =>
              if decide (expectedType ≠ "array") then None
              else
                match itemSchemaOf σ0 s with
                | None => None
                | Some itemSchema =>
                    collect_indexed
                      (λ i item, extract σ0 item itemSchema
                                   (path +:+ "[" +:+ Str.of_nat i +:+ "]"))
                      field 0
                end
          | VString field => extractString field s path expectedType
          | _ => if scalarAccepted resource expectedType then Some [] else None
          end
      end
  end.

End WithHelpers.

End Pure.

(** ** Vocabulary of the further properties *)

Module Coverage.
Import Parser Reference.

(** The two kinds of descriptor [parseString] builds: a standalone one
    points to its schema and holds one expression; an embedded one has no
    schema pointer, a string-like expected type and at least one
    expression. *)
Definition well_formed (d : FieldDescriptor) : Prop :=
  if StandaloneExpression d
  then is_Some (ExpectedSchema d) ∧ length (Expressions d) = 1
  else ExpectedSchema d = None
       ∧ (ExpectedType d = "string" ∨ ExpectedType d = "any")
       ∧ 0 < length (Expressions d).

(** A string without expression: not a standalone expression, and the
    scan for embedded expressions finds none. *)
Definition plain (isStandaloneExpression : string → outcome bool)
    (extractExpressions : string → outcome (list string)) (s : string) : Prop :=
  isStandaloneExpression s = Ok false ∧ extractExpressions s = Ok [].

(** The text [e] neither begins nor ends with one of the bytes [$], [{]
    and [}]. *)
Definition clean_ends (e : string) : Prop :=
  (∀ c e', e = String c e' → Str.contains_char c "${}" = false)
  ∧ (∀ e' c, e = e' +:+ String c "" → Str.contains_char c "${}" = false).

(** Reading one quoted byte back: the inverse of [quote_byte] on the
    front of a text. *)
Definition hex_value (c : ascii) : option N :=
  (fix find (l : list ascii) (i : N) : option N :=
     match l with
     | [] => None
     | d :: l' => if decide (c = d) then Some i else find l' (i + 1)%N
     end) (Str.to_list "0123456789abcdef") 0%N.

Definition unquote_byte (s : string) : option (ascii * string) :=
  match s with
  | EmptyString => None
  | String c r =>
      if decide (c = Str.backslash) then
        match r with
        | EmptyString => None
        | String t r' =>
            if decide (t = Str.backslash) then Some (Str.backslash, r')
            else if decide (t = Str.dquote) then Some (Str.dquote, r')
            else if decide (t = "a"%char) then Some ("007"%char, r')
            else if decide (t = "b"%char) then Some ("008"%char, r')
            else if decide (t = "f"%char) then Some ("012"%char, r')
            else if decide (t = "n"%char) then Some ("010"%char, r')
            else if decide (t = "r"%char) then Some ("013"%char, r')
            else if decide (t = "t"%char) then Some ("009"%char, r')
            else if decide (t = "v"%char) then Some ("011"%char, r')
            else if decide (t = "x"%char) then
              match r' with
              | String h1 (String h2 r'') =>
                  match hex_value h1, hex_value h2 with
                  | Some a, Some b => Some (ascii_of_N (16 * a + b), r'')
                  | _, _ => None
                  end
              | _ => None
              end
            else None
        end
      else Some (c, r)
  end.

(** The descriptor's expected type is the one [getExpectedType] reads off
    the schema the descriptor points to, as that schema is in the store [σ]:
    its single type, or [any] for an untyped schema whose
    AdditionalProperties allow. *)
Definition points_to_its_type (σ : store) (d : FieldDescriptor) : Prop :=
  ∀ q, ExpectedSchema d = Some q →
    ∃ c t, σ !! q = Some c ∧ Type_ c = [t]
           ∧ ExpectedType d
             = (if decide (t ≠ "") then t else if allows c then "any" else "").

(** The strings of a document, map keys left out. *)
Fixpoint strings_of (v : value) : list string :=
  match v with
  | VString s => [s]
  | VMap entries => flat_map (λ e, strings_of e.2) entries
  | VSlice items => flat_map strings_of items
  | _ => []
  end.

(** An array schema whose items are described by the cell [item]. *)
Definition arrayOf (item : loc) : Schema :=
  {| Type_ := ["array"]; OneOf := []; AdditionalProperties := None;
     Properties := ∅; Items := Some {| SchemaOrArray_Schema := Some item |};
     Extensions := ∅ |}.

(** A small schema and a document for it: [spec.ports] is an array of
    strings. *)
Definition portsStore : store :=
  [ objectOf [("spec", objectOf [("ports", arrayOf 1)])]; typed "string" ].

Definition portsDocument : list (string * value) :=
  [ ("spec", VMap [("ports", VSlice [ VString "${db.status.port}";
                                      VString "tcp-${db.status.port}" ])]) ].

(** [joinPathAndFieldName] with the [%q] verb of [fmt.Sprintf] taken as a
    parameter. *)
Definition joinPathAndFieldNameWith (quote : string → string)
    (path fieldName : string) : string :=
  if bool_decide (fieldName = "") || Str.contains_char "." fieldName then
    path +:+ "[" +:+ quote fieldName +:+ "]"
  else if decide (path = "") then fieldName
  else path +:+ "." +:+ fieldName.

(** What the statements on paths need of the [%q] verb.  Both hold of
    [strconv.Quote]: [strconv.Unquote] gives the argument back, and the
    result is the argument between two double quotes, with every double
    quote of the argument escaped and none added. *)
Definition quotes (quote : string → string) : Prop :=
  (∀ n1 n2, quote n1 = quote n2 → n1 = n2)
  ∧ (∀ n, ∃ body,
       quote n = Str.char Str.dquote +:+ body +:+ Str.char Str.dquote
       ∧ (Str.contains_char Str.dquote n = false →
          Str.contains_char Str.dquote body = false)).

End Coverage.

(** ** internal/graph/validation.go, the checks on Kubernetes objects *)

Module Objects.
Import Graph Parser.

(** *** The language of a pattern *)

Inductive lang : regex → string → Prop :=
| lang_eps : lang Eps ""
| lang_class rs c : in_class rs c = true → lang (Class rs) (String c "")
| lang_cat r1 r2 s1 s2 : lang r1 s1 → lang r2 s2 → lang (Cat r1 r2) (s1 +:+ s2)
| lang_alt_l r1 r2 s : lang r1 s → lang (Alt r1 r2) s
| lang_alt_r r1 r2 s : lang r2 s → lang (Alt r1 r2) s
| lang_star_nil r : lang (Star r) ""
| lang_star_cons r s1 s2 : lang r s1 → lang (Star r) s2 → lang (Star r) (s1 +:+ s2).

(** *** [kubernetesVersionRegex] *)

Definition lit (c : ascii) : regex := Class [(c, c)].
Definition digit : regex := Class [("0", "9")]%char.
(** [r+] *)
Definition plus (r : regex) : regex := Cat r (Star r).
(** [r?] *)
Definition opt (r : regex) : regex := Alt r Eps.
(** The literal text [s]. *)
Fixpoint word (s : string) : regex :=
  match s with
  | EmptyString => Eps
  | String c s' => Cat (lit c) (word s')
  end.

(** [^v\d+(?:(?:alpha|beta)\d+)?$] *)
Definition kubernetesVersionRegex : regex :=
  Cat (lit "v") (Cat (plus digit)
                     (opt (Cat (Alt (word "alpha") (word "beta")) (plus digit)))).

Definition validateKubernetesVersion (version : string) : error :=
  if negb (MatchString kubernetesVersionRegex version) then
    Some ("version " +:+ version +:+ " is not a valid Kubernetes version")
  else None.

Definition is_digit (c : ascii) : Prop := Str.in_range "0" "9" c = true.

(** A non-empty string of decimal digits. *)
Definition digits (s : string) : Prop :=
  s ≠ "" ∧ Forall is_digit (Str.to_list s).

(** *** [schema.ParseGroupVersion] of apimachinery *)

Record GroupVersion := { Group : string; Version : string }.

Fixpoint count_char (c : ascii) (s : string) : nat :=
  match s with
  | EmptyString => 0
  | String d s' => (if decide (c = d) then 1 else 0) + count_char c s'
  end.

(** The text before and after the first [c]. *)
Fixpoint cut (c : ascii) (s : string) : string * string :=
  match s with
  | EmptyString => ("", "")
  | String d s' =>
      if decide (c = d) then ("", s')
      else let '(a, b) := cut c s' in (String d a, b)
  end.

(** The library function: the empty string and [/] give the empty group
    version, a text without slash is a version, [group/version] is split
    at its slash, and more than one slash is an error. *)
Definition ParseGroupVersion (gv : string) : GroupVersion + string :=
  if bool_decide (gv = "") || bool_decide (gv = "/") then
    inl {| Group := ""; Version := "" |}
  else
    match count_char "/" gv with
    | 0 => inl {| Group := ""; Version := gv |}
    | 1 => let '(g, v) := cut "/" gv in inl {| Group := g; Version := v |}
    | _ => inr ("unexpected GroupVersion string: " +:+ gv)
    end.

(** *** [validateKubernetesObjectStructure]

    The object is a [map[string]interface{}] that is only looked up. *)

Section WithParser.
Variable parseGroupVersion : string → GroupVersion + string.

Definition validateKubernetesObjectStructure (obj : gmap string value) : error :=
  match obj !! "apiVersion" with
  | None => Some "apiVersion field not found"
  | Some apiVersion =>
      match apiVersion with
      | VString apiVersionString =>
          match parseGroupVersion apiVersionString with
          | inr err =>
              Some ("apiVersion field is not a valid Kubernetes group version: " +:+ err)
          | inl groupVersion =>
              match (if bool_decide (Version groupVersion ≠ "")
                     then validateKubernetesVersion (Version groupVersion)
                     else None) with
              | Some err =>
                  Some ("apiVersion field does not have a valid version: " +:+ err)
              | None =>
                  match obj !! "kind" with
                  | None => Some "kind field not found"
                  | Some (VString _) =>
                      match obj !! "metadata" with
                      | None => Some "metadata field not found"
                      | Some (VMap _) => None
                      | Some _ => Some "metadata field is not a map"
                      end
                  | Some _ => Some "kind field is not a string"
                  end
              end
          end
      | _ => Some "apiVersion field is not a string"
      end
  end.

End WithParser.

End Objects.

(** ** The CEL environment *)

Module Cel.

Section WithCel.
(** [cel.EnvOption], [*cel.Env] and the library calls the file makes. *)
Variable celEnvOption : Type.
Variable celEnv : Type.
Variable extLists extStrings : celEnvOption.
Variable celVariableAny : string → celEnvOption.
Variable celNewEnv : list celEnvOption → celEnv + string.

Record envOptions := {
  resourceIDs : list string;
  customDeclarations : list celEnvOption }.

(** A function from a pointer to [envOptions] to nothing: modelled by
    what it does to the options it is given a pointer to. *)
Definition EnvOption : Type := envOptions → envOptions.

Definition WithResourceIDs (ids : list string) : EnvOption :=
  λ opts, {| resourceIDs := resourceIDs opts ++ ids;
             customDeclarations := customDeclarations opts |}.

Definition WithCustomDeclarations (declarations : list celEnvOption) : EnvOption :=
  λ opts, {| resourceIDs := resourceIDs opts;
             customDeclarations := customDeclarations opts ++ declarations |}.

Definition DefaultEnvironment (options : list EnvOption) : celEnv + string :=
  let opts := foldl (λ opts opt, opt opts)
                    {| resourceIDs := []; customDeclarations := [] |} options in
  let declarations :=
    foldl (λ declarations name, declarations ++ [celVariableAny name])
          [extLists; extStrings] (resourceIDs opts) in
  celNewEnv declarations.

(** The two ways the package offers to build an option. *)
Inductive option_call :=
| CallWithResourceIDs (ids : list string)
| CallWithCustomDeclarations (declarations : list celEnvOption).

Definition call (c : option_call) : EnvOption :=
  match c with
  | CallWithResourceIDs ids => WithResourceIDs ids
  | CallWithCustomDeclarations ds => WithCustomDeclarations ds
  end.

Definition ids_of_call (c : option_call) : list string :=
  match c with
  | CallWithResourceIDs ids => ids
  | CallWithCustomDeclarations _ => []
  end.

End WithCel.

End Cel.

(* ================================================================== *)
(** * Properties *)

(** ** Naming conventions *)

Module GraphProps.
Import Graph.

(** A group with the given kind name and resource identifiers. *)
Definition group (kind : string) (ids : list string) : ResourceGroup :=
  {| Spec := {| Schema_ := {| Kind := kind |};
                Resources := (λ i, {| ID := i |}) <$> ids |} |}.

Definition ids_of (rg : ResourceGroup) : list string := ID <$> Resources (Spec rg).

(** *** The two patterns, read on the bytes of the text *)

Lemma MatchString_Alt r1 r2 s :
  MatchString (Alt r1 r2) s = MatchString r1 s || MatchString r2 s.
Proof. revert r1 r2. induction s as [|c s IH]; intros r1 r2; simpl; [done|apply IH]. Qed.

Lemma MatchString_Void s : MatchString Void s = false.
Proof. induction s; simpl; auto. Qed.

Lemma MatchString_Cat_Void r s : MatchString (Cat Void r) s = false.
Proof. induction s; simpl; auto. Qed.

Lemma MatchString_Star_Class rs s :
  MatchString (Star (Class rs)) s = forallb (in_class rs) (Str.to_list s).
Proof.
  induction s as [|c s IH]; simpl; [done|].
  destruct (in_class rs c); simpl; [|apply MatchString_Cat_Void].
  destruct s as [|d s]; [done|].
  simpl in *. rewrite MatchString_Alt, MatchString_Cat_Void. simpl. exact IH.
Qed.

Lemma MatchString_camel first rs s :
  MatchString (Cat (Class first) (Star (Class rs))) s
  = match s with
    | EmptyString => false
    | String c s' => in_class first c && forallb (in_class rs) (Str.to_list s')
    end.
Proof.
  destruct s as [|c s]; simpl; [done|].
  destruct (in_class first c); simpl; [|apply MatchString_Cat_Void].
  destruct s as [|d s]; [done|].
  simpl. rewrite MatchString_Alt, MatchString_Cat_Void. simpl.
  apply (MatchString_Star_Class rs (String d s)).
Qed.

(** [isValidResourceID]: a lower-case ASCII letter followed by ASCII
    letters and digits only. *)
Lemma isValidResourceID_spec id :
  isValidResourceID id = true ↔
  ∃ c rest, id = String c rest ∧ Str.in_range "a" "z" c = true ∧
    Forall (λ d, Str.in_range "a" "z" d = true ∨ Str.in_range "A" "Z" d = true
                 ∨ Str.in_range "0" "9" d = true) (Str.to_list rest).
Proof.
  unfold isValidResourceID, lowerCamelCaseRegex. rewrite MatchString_camel.
  destruct id as [|c rest].
  - split; [done|]. by intros (? & ? & ? & _).
  - rewrite andb_true_iff, forallb_forall. unfold in_class at 1. simpl.
    rewrite orb_false_r. split.
    + intros [Hc Hrest]. exists c, rest. split_and!; [done..|].
      apply Forall_forall. intros d Hd%list_elem_of_In. apply Hrest in Hd.
      unfold in_class in Hd. simpl in Hd. rewrite orb_false_r in Hd.
      apply orb_true_iff in Hd as [?|Hd]; [auto|].
      apply orb_true_iff in Hd as [?|?]; auto.
    + intros (c' & rest' & [= <- <-] & Hc & Hrest). split; [done|].
      intros d Hd%list_elem_of_In. rewrite Forall_forall in Hrest.
      apply Hrest in Hd. unfold in_class. simpl. rewrite orb_false_r.
      rewrite !orb_true_iff. tauto.
Qed.

Lemma isKROReservedWord_loop_spec ws word :
  isKROReservedWord_loop ws word = true ↔ word ∈ ws.
Proof.
  induction ws as [|w ws IH]; simpl.
  - split; [done|]. by intros ?%elem_of_nil.
  - rewrite elem_of_cons. destruct (decide (w = word)) as [->|Hne].
    + split; auto.
    + rewrite IH. split; [auto|]. intros [?|?]; [congruence|done].
Qed.

Lemma isKROReservedWord_spec word :
  isKROReservedWord word = true ↔ word ∈ reservedKeyWords.
Proof. apply isKROReservedWord_loop_spec. Qed.

(** The duplicate check: the loop succeeds exactly when every identifier
    passes the three tests, the third one against the ones before it. *)
Lemma validateResourceIDs_loop_None seen rs :
  validateResourceIDs_loop seen rs = None ↔
  (∀ res, res ∈ rs → isValidResourceID (ID res) = true ∧ ID res ∉ reservedKeyWords)
  ∧ NoDup (ID <$> rs) ∧ (∀ id, id ∈ ID <$> rs → id ∉ seen).
Proof.
  revert seen. induction rs as [|res rs IH]; intros seen; simpl.
  - split; [|done]. intros _. split_and!.
    + by intros ? ?%elem_of_nil.
    + constructor.
    + by intros ? ?%elem_of_nil.
  - destruct (isKROReservedWord (ID res)) eqn:Hres.
    { split; [done|]. intros (Hall & _ & _).
      apply isKROReservedWord_spec in Hres.
      destruct (Hall res) as [_ Hn]; [left|]. by destruct Hn. }
    assert (ID res ∉ reservedKeyWords) as Hnres.
    { intros Hin%isKROReservedWord_spec. congruence. }
    destruct (isValidResourceID (ID res)) eqn:Hval; simpl.
    2:{ split; [done|]. intros (Hall & _ & _).
        destruct (Hall res) as [Hv _]; [left|]. congruence. }
    destruct (decide (ID res ∈ seen)) as [Hin|Hnin].
    { split; [done|]. intros (_ & _ & Hseen). destruct (Hseen (ID res)); [left|done]. }
    rewrite IH. rewrite NoDup_cons. split.
    + intros (Hall & Hnd & Hseen). split_and!.
      * intros r [->|Hr]%elem_of_cons; auto.
      * intros Hdup. apply Hseen in Hdup. set_solver.
      * done.
      * intros id [->|Hid]%elem_of_cons; [done|].
        apply Hseen in Hid. set_solver.
    + intros (Hall & [Hfresh Hnd] & Hseen). split_and!.
      * intros r Hr. apply Hall. by right.
      * done.
      * intros id Hid. apply not_elem_of_union. split.
        -- apply not_elem_of_singleton. intros ->. done.
        -- apply Hseen. by right.
Qed.

(** Identifiers before the first offending one do not change the error
    the loop reports for it. *)
Lemma validateResourceIDs_loop_app seen pre rest :
  validateResourceIDs_loop seen pre = None →
  validateResourceIDs_loop seen (pre ++ rest)
  = validateResourceIDs_loop (list_to_set (ID <$> pre) ∪ seen) rest.
Proof.
  revert seen. induction pre as [|res pre IH]; intros seen; simpl.
  - intros _. f_equal. set_solver.
  - destruct (isKROReservedWord (ID res)); [done|].
    destruct (isValidResourceID (ID res)); simpl; [|done].
    destruct (decide (ID res ∈ seen)); [done|].
    intros H. rewrite (IH _ H). f_equal. set_solver.
Qed.

(** C2. [validateResourceGroupNamingConventions] returns [nil] if and only
    if the kind name matches [^[A-Z][a-zA-Z0-9]*$], every resource
    identifier matches [^[a-z][a-zA-Z0-9]*$] and is not a reserved
    keyword, and the identifiers are pairwise distinct.  In particular a
    group with a valid kind name whose first offending identifier is
    [spec] is rejected with the reserved-keyword error naming [spec]. *)
Theorem naming_conventions_characterised (rg : ResourceGroup) :
  (validateResourceGroupNamingConventions rg = None ↔
     MatchString upperCamelCaseRegex (Kind (Schema_ (Spec rg))) = true
     ∧ (∀ id, id ∈ ids_of rg →
          MatchString lowerCamelCaseRegex id = true ∧ id ∉ reservedKeyWords)
     ∧ NoDup (ids_of rg))
  ∧ (∀ pre post,
       ids_of rg = pre ++ "spec" :: post →
       validateResourceGroupNamingConventions (group (Kind (Schema_ (Spec rg))) pre) = None →
       validateResourceGroupNamingConventions rg
       = Some "naming convention violation: id spec is a reserved keyword in KRO").
Proof.
  destruct rg as [[[kind] rs]]. unfold ids_of, validateResourceGroupNamingConventions,
    validateResourceIDs, isValidKindName. simpl. split.
  - destruct (MatchString upperCamelCaseRegex kind) eqn:Hk; simpl.
    2:{ split; [done|]. by intros [? _]. }
    destruct (validateResourceIDs_loop ∅ rs) as [e|] eqn:Hloop.
    + split; [done|]. intros (_ & Hall & Hnd).
      assert (validateResourceIDs_loop ∅ rs = None) as Hn; [|congruence].
      apply validateResourceIDs_loop_None. split_and!; [|done|set_solver].
      intros res Hres. apply Hall. apply list_elem_of_fmap. eauto.
    + apply validateResourceIDs_loop_None in Hloop as (Hall & Hnd & _).
      split; [|done]. intros _. split_and!; [done| |done].
      intros id (res & -> & Hres)%list_elem_of_fmap. by apply Hall.
  - intros pre post Hids.
    destruct (MatchString upperCamelCaseRegex kind) eqn:Hk; simpl; [|done].
    destruct (validateResourceIDs_loop ∅ ((λ i, {| ID := i |}) <$> pre)) eqn:Hpre; [done|].
    intros _.
    assert (rs = ((λ i, {| ID := i |}) <$> pre) ++ {| ID := "spec" |} :: drop (S (length pre)) rs) as ->.
    { clear -Hids. revert rs Hids. induction pre as [|i pre IH]; intros [|[r] rs] Hids;
        simplify_eq/=; [done|]. f_equal. by apply IH. }
    rewrite validateResourceIDs_loop_app by done. done.
Qed.

Lemma naming_conventions_characterised_witness :
  validateResourceGroupNamingConventions (group "WebApp" ["db"; "spec"; "web"])
  = Some "naming convention violation: id spec is a reserved keyword in KRO".
Proof.
  apply (proj2 (naming_conventions_characterised (group "WebApp" ["db"; "spec"; "web"]))
           ["db"] ["web"]).
  - reflexivity.
  - vm_compute. reflexivity.
Defined.

Example valid_group :
  validateResourceGroupNamingConventions (group "WebApp" ["db"; "webServer"]) = None.
Proof. vm_compute. reflexivity. Qed.

Example duplicate_group :
  validateResourceGroupNamingConventions (group "WebApp" ["db"; "db"])
  = Some "naming convention violation: found duplicate resource IDs db".
Proof. vm_compute. reflexivity. Qed.

Example bad_kind :
  validateResourceGroupNamingConventions (group "webApp" ["db"])
  = Some "naming convention violation: kind 'webApp' is not a valid KRO kind name: must be UpperCamelCase".
Proof. vm_compute. reflexivity. Qed.

Example bad_id :
  validateResourceGroupNamingConventions (group "WebApp" ["my-db"])
  = Some "naming convention violation: id my-db is not a valid KRO resource id: must be lower camelCase".
Proof. vm_compute. reflexivity. Qed.

End GraphProps.

(** ** CRD defaults *)

Module CrdProps.
Import Crd.

(** C8. The default status additions and printer columns: [state] is a
    string; [conditions] is an array of objects whose properties are
    exactly [type], [status], [reason], [message], [lastTransitionTime]
    (strings) and [observedGeneration] (integer); the printer columns are
    exactly [State], [Synced] and [Age], with JSONPaths [.status.state],
    the status of the condition of type [InstanceSynced], and
    [.metadata.creationTimestamp]. *)
Theorem crd_defaults_shape :
  Type_ defaultStateType = "string"
  ∧ Type_ defaultConditionsType = "array"
  ∧ (∃ item, Items defaultConditionsType = Some item
       ∧ Type_ item = "object"
       ∧ Type_ <$> Properties item
         = list_to_map [ ("type", "string"); ("status", "string"); ("reason", "string");
                         ("message", "string"); ("lastTransitionTime", "string");
                         ("observedGeneration", "integer") ]
       ∧ size (Properties item) = 6)
  ∧ Name <$> defaultAdditionalPrinterColumns = ["State"; "Synced"; "Age"]
  ∧ JSONPath <$> defaultAdditionalPrinterColumns
    = [ ".status.state";
        ".status.conditions[?(@.type==" +:+ Str.char Str.dquote +:+ "InstanceSynced"
          +:+ Str.char Str.dquote +:+ ")].status";
        ".metadata.creationTimestamp" ].
Proof.
  split_and!; try reflexivity.
  eexists. split_and!; try reflexivity; vm_compute; reflexivity.
Qed.

End CrdProps.

(** ** The parser *)

Module ParserProps.
Import Parser Reference Pure Coverage.

Section WithHelpers.
Variable isStandaloneExpression : string → outcome bool.
Variable extractExpressions : string → outcome (list string).
Variable fmtv : value → string.

Local Abbreviation parseResource :=
  (Parser.parseResource isStandaloneExpression extractExpressions fmtv).
Local Abbreviation parseString :=
  (Parser.parseString isStandaloneExpression extractExpressions fmtv).
Local Abbreviation parseObject :=
  (Parser.parseObject fmtv).
Local Abbreviation parseArray :=
  (Parser.parseArray fmtv).

(** C4. With a [nil] schema, [parseResource] returns the error
    "schema is nil for path <path>" and no descriptors, whatever the
    value is: the error comes from [validateSchema], before the type
    switch on the value, and the store is left as it was. *)
Theorem nil_schema_is_rejected (resource : value) (path : string) (σ : store) :
  parseResource resource None path σ = (σ, Err ("schema is nil for path " +:+ path)).
Proof. destruct resource; reflexivity. Qed.

(** C7. [getArrayItemSchema] agrees on every store, schema pointer and
    path with the function that returns [schema.Items.Schema] when both
    [Items] and [Items.Schema] are set and the invalid-array-schema
    error otherwise: the branch that builds an object schema from
    [Properties] is never taken. *)
Theorem getArrayItemSchema_second_branch_dead (schema : loc) (path : string) (σ : store) :
  getArrayItemSchema schema path σ = getArrayItemSchema_simplified schema path σ.
Proof.
  unfold getArrayItemSchema, getArrayItemSchema_simplified, mbind, M_bind, bind.
  destruct (load schema σ) as [σ' [s| |]]; [|done..].
  destruct (Items s) as [[[q|]]|]; reflexivity.
Qed.


(** *** Unfolding the traversal *)

Lemma parseResource_nil (resource : value) (path : string) (σ : store) :
  parseResource resource None path σ = (σ, Err ("schema is nil for path " +:+ path)).
Proof. destruct resource; reflexivity. Qed.

Lemma parseResource_unfold (resource : value) (p : loc) (path : string) (σ : store) :
  parseResource resource (Some p) path σ
  = match validateSchema (Some p) path σ with
    | (σ1, Ok _) =>
        match getExpectedType p σ1 with
        | (σ2, Ok expectedType) =>
            match resource with
            | VMap field => parseObject parseResource field p path expectedType σ2
            | VSlice field => parseArray parseResource field p path expectedType σ2
            | VString field => parseString field p path expectedType σ2
            | VNil => (σ2, Ok [])
            | _ => parseScalarTypes resource path expectedType σ2
            end
        | (σ2, Err e) => (σ2, Err e)
        | (σ2, Panic e) => (σ2, Panic e)
        end
    | (σ1, Err e) => (σ1, Err e)
    | (σ1, Panic e) => (σ1, Panic e)
    end.
Proof. destruct resource; reflexivity. Qed.

(** *** String fields *)

(** A standalone expression yields exactly one descriptor: standalone,
    with the expected type and the schema pointer of the field.  Its
    expression is the field with the bytes [$], [{] and [}] trimmed off
    both ends. *)
Lemma parseString_standalone (field : string) (schema : loc) (path expectedType : string)
    (σ : store) :
  isStandaloneExpression field = Ok true →
  parseString field schema path expectedType σ
  = (σ, Ok [ {| Path := path;
                Expressions := [Str.Trim field "${}"];
                ExpectedType := expectedType;
                ExpectedSchema := Some schema;
                StandaloneExpression := true |} ]).
Proof.
  intros H. unfold Parser.parseString, mbind, M_bind, bind, lift. by rewrite H.
Qed.

(** A string that is not a standalone expression is rejected when the
    expected type is neither [string] nor [any]. *)
Lemma parseString_embedded_rejected (field : string) (schema : loc)
    (path expectedType : string) (σ : store) :
  isStandaloneExpression field = Ok false →
  expectedType ≠ "string" → expectedType ≠ "any" →
  parseString field schema path expectedType σ
  = (σ, Err ("expected string type or AdditionalProperties for path " +:+ path
             +:+ ", got " +:+ fmtv (VString field))).
Proof.
  intros H H1 H2. unfold Parser.parseString, mbind, M_bind, bind, lift. rewrite H.
  rewrite !bool_decide_eq_true_2 by done. done.
Qed.

(** *** Induction over documents *)

Section value_induction.
Variable P : value → Prop.
Hypothesis HNil : P VNil.
Hypothesis HMap : ∀ entries, Forall (λ e, P e.2) entries → P (VMap entries).
Hypothesis HSlice : ∀ items, Forall P items → P (VSlice items).
Hypothesis HString : ∀ s, P (VString s).
Hypothesis HBool : ∀ b, P (VBool b).
Hypothesis HInt : ∀ n, P (VInt n).
Hypothesis HInt32 : ∀ n, P (VInt32 n).
Hypothesis HInt64 : ∀ n, P (VInt64 n).
Hypothesis HFloat64 : ∀ n, P (VFloat64 n).
Hypothesis HOther : ∀ t, P (VOther t).

Fixpoint value_nested_ind (v : value) : P v :=
  match v with
  | VNil => HNil
  | VMap entries =>
      HMap entries
        ((fix go (l : list (string * value)) : Forall (λ e, P e.2) l :=
            match l with
            | [] => List.Forall_nil _
            | e :: l' => List.Forall_cons _ e l' (value_nested_ind e.2) (go l')
            end) entries)
  | VSlice items =>
      HSlice items
        ((fix go (l : list value) : Forall P l :=
            match l with
            | [] => List.Forall_nil _
            | e :: l' => List.Forall_cons _ e l' (value_nested_ind e) (go l')
            end) items)
  | VString s => HString s
  | VBool b => HBool b
  | VInt n => HInt n
  | VInt32 n => HInt32 n
  | VInt64 n => HInt64 n
  | VFloat64 n => HFloat64 n
  | VOther t => HOther t
  end.
End value_induction.

(** *** The store under the traversal *)

Lemma only_union_overwrites_refl (σ : store) : only_union_overwrites σ σ.
Proof. intros l s H. by left. Qed.

Lemma union_overwrite_single (s s' : Schema) :
  union_overwrite s s' → length (Type_ s') = 1.
Proof. intros (alt & alts & t & ts & _ & _ & _ & ->). done. Qed.

Lemma only_union_overwrites_trans (σ1 σ2 σ3 : store) :
  only_union_overwrites σ1 σ2 → only_union_overwrites σ2 σ3 →
  only_union_overwrites σ1 σ3.
Proof.
  intros H12 H23 l s Hl. destruct (H12 l s Hl) as [H2|(s' & H2 & Hov)].
  - by apply H23.
  - right. exists s'. split; [|done].
    destruct (H23 l s' H2) as [H3|(s'' & _ & Hov')]; [done|].
    apply union_overwrite_single in Hov.
    destruct Hov' as (? & ? & ? & ? & Hlen & _). done.
Qed.

(** A computation that touches the store only by union overwrites. *)
Definition frames {A} (m : M A) : Prop :=
  ∀ σ σ' r, m σ = (σ', r) → only_union_overwrites σ σ'.

Lemma frames_ret {A} (a : A) : frames (ret a).
Proof. intros σ σ' r [= <- _]. apply only_union_overwrites_refl. Qed.

Lemma frames_fail {A} (msg : string) : frames (@fail A msg).
Proof. intros σ σ' r [= <- _]. apply only_union_overwrites_refl. Qed.

Lemma frames_panic {A} (msg : string) : frames (@panic A msg).
Proof. intros σ σ' r [= <- _]. apply only_union_overwrites_refl. Qed.

Lemma frames_lift {A} (o : outcome A) : frames (lift o).
Proof. intros σ σ' r [= <- _]. apply only_union_overwrites_refl. Qed.

Lemma frames_load (p : loc) : frames (load p).
Proof.
  intros σ σ' r. unfold load. destruct (σ !! p); intros [= <- _];
    apply only_union_overwrites_refl.
Qed.

Lemma frames_alloc (s : Schema) : frames (alloc s).
Proof.
  intros σ σ' r [= <- _] l c Hl. left. by apply lookup_app_l_Some.
Qed.

Lemma frames_bind {A B} (m : M A) (k : A → M B) :
  frames m → (∀ a, frames (k a)) → frames (m ≫= k).
Proof.
  intros Hm Hk σ σ' r. unfold mbind, M_bind, bind.
  destruct (m σ) as [σ1 [a|e|e]] eqn:E; intros H.
  - eapply only_union_overwrites_trans; [by eapply Hm|by eapply Hk].
  - injection H as <- _. by eapply Hm.
  - injection H as <- _. by eapply Hm.
Qed.

Lemma frames_validateSchema (schema : option loc) (path : string) :
  frames (validateSchema schema path).
Proof.
  intros σ σ' r. destruct schema as [p|]; [|apply frames_fail].
  unfold validateSchema, mbind, M_bind, bind, load.
  destruct (σ !! p) as [s|] eqn:Hp; [|intros [= <- _]; apply only_union_overwrites_refl].
  destruct (decide (length (Type_ s) ≠ 1)) as [Hlen|]; [|apply frames_ret].
  destruct (OneOf s) as [|alt alts] eqn:Hone; [apply frames_fail|].
  destruct (Type_ alt) as [|t ts] eqn:Halt; [apply frames_panic|].
  intros [= <- _] l c Hl. destruct (decide (l = p)) as [->|Hne].
  - right. exists (set_Type [t] s). split.
    + apply list_lookup_insert_eq. by eapply lookup_lt_Some.
    + rewrite Hp in Hl. injection Hl as <-. exists alt, alts, t, ts. by split_and!.
  - left. by rewrite list_lookup_insert_ne.
Qed.

Lemma frames_getExpectedType (schema : loc) : frames (getExpectedType schema).
Proof.
  apply frames_bind; [apply frames_load|]. intros s.
  destruct (Type_ s); [apply frames_panic|].
  repeat case_match; apply frames_ret.
Qed.

Lemma frames_getFieldSchema (schema : loc) (field : string) :
  frames (getFieldSchema schema field).
Proof.
  apply frames_bind; [apply frames_load|]. intros s.
  repeat case_match; auto using frames_alloc, frames_ret, frames_fail.
Qed.

Lemma frames_getArrayItemSchema (schema : loc) (path : string) :
  frames (getArrayItemSchema schema path).
Proof.
  apply frames_bind; [apply frames_load|]. intros s.
  repeat case_match; auto using frames_ret, frames_fail.
Qed.

Lemma frames_parseString (field : string) (schema : loc) (path expectedType : string) :
  frames (parseString field schema path expectedType).
Proof.
  apply frames_bind; [apply frames_lift|]. intros ok.
  destruct ok; [apply frames_ret|].
  case_match; [apply frames_fail|].
  apply frames_bind; [apply frames_lift|]. intros es.
  case_match; apply frames_ret.
Qed.

Lemma frames_parseScalarTypes (field : value) (path expectedType : string) :
  frames (parseScalarTypes field path expectedType).
Proof.
  unfold parseScalarTypes.
  repeat case_match; auto using frames_ret, frames_fail.
Qed.

Lemma frames_parseObject_range
    (rec : value → option loc → string → M (list FieldDescriptor))
    (schema : loc) (path : string) (field : list (string * value)) :
  Forall (λ e, ∀ s p, frames (rec e.2 s p)) field →
  ∀ acc, frames (parseObject_range rec schema path field acc).
Proof.
  induction 1 as [|[fieldName v] rest Hv _ IH]; intros acc σ σ' r; simpl.
  - apply frames_ret.
  - destruct (getFieldSchema schema fieldName σ) as [σ1 [fs|e|e]] eqn:E1.
    + pose proof (frames_getFieldSchema _ _ _ _ _ E1) as H1.
      destruct (rec v (Some fs) (joinPathAndFieldName path fieldName) σ1)
        as [σ2 [fe|e|e]] eqn:E2; pose proof (Hv _ _ _ _ _ E2) as H2.
      * intros H3%IH. eauto using only_union_overwrites_trans.
      * intros [= <- _]. eauto using only_union_overwrites_trans.
      * intros [= <- _]. eauto using only_union_overwrites_trans.
    + intros [= <- _]. by eapply frames_getFieldSchema.
    + intros [= <- _]. by eapply frames_getFieldSchema.
Qed.

Lemma frames_parseArray_range
    (rec : value → option loc → string → M (list FieldDescriptor))
    (itemSchema : loc) (path : string) (field : list value) :
  Forall (λ e, ∀ s p, frames (rec e s p)) field →
  ∀ i acc, frames (parseArray_range rec itemSchema path field i acc).
Proof.
  induction 1 as [|v rest Hv _ IH]; intros i acc σ σ' r; simpl.
  - apply frames_ret.
  - destruct (rec v (Some itemSchema) (path +:+ "[" +:+ Str.of_nat i +:+ "]") σ)
      as [σ1 [fe|e|e]] eqn:E1; pose proof (Hv _ _ _ _ _ E1) as H1.
    + intros H2%IH. eauto using only_union_overwrites_trans.
    + by intros [= <- _].
    + by intros [= <- _].
Qed.

Lemma frames_parseResource (resource : value) :
  ∀ schema path, frames (parseResource resource schema path).
Proof.
  induction resource as [|entries IH|items IH|s|b|n|n|n|n|t] using value_nested_ind;
    intros schema path σ σ' r;
    (destruct schema as [p|];
      [rewrite parseResource_unfold
      |rewrite parseResource_nil; intros [= <- _]; apply only_union_overwrites_refl]);
    (destruct (validateSchema (Some p) path σ) as [σ1 [[]|e|e]] eqn:E1;
      pose proof (frames_validateSchema _ _ _ _ _ E1) as H1;
      [|by intros [= <- _]..]);
    (destruct (getExpectedType p σ1) as [σ2 [et|e|e]] eqn:E2;
      pose proof (frames_getExpectedType _ _ _ _ E2) as H2;
      [|intros [= <- _]; eauto using only_union_overwrites_trans..]);
    intros H3; cut (only_union_overwrites σ2 σ');
    eauto using only_union_overwrites_trans.
  - injection H3 as <- _. apply only_union_overwrites_refl.
  - revert H3. unfold Parser.parseObject. apply frames_bind; [apply frames_load|].
    intros s. case_match; [apply frames_fail|].
    repeat case_match; auto using frames_ret, frames_panic;
      by apply frames_parseObject_range.
  - revert H3. unfold Parser.parseArray. case_match; [apply frames_fail|].
    apply frames_bind; [apply frames_getArrayItemSchema|]. intros q.
    by apply frames_parseArray_range.
  - by eapply frames_parseString.
  - by eapply frames_parseScalarTypes.
  - by eapply frames_parseScalarTypes.
  - by eapply frames_parseScalarTypes.
  - by eapply frames_parseScalarTypes.
  - by eapply frames_parseScalarTypes.
  - by eapply frames_parseScalarTypes.
Qed.

(** *** Objects with preserved unknown fields *)

Lemma lookup_size_pos {A} (m : gmap string A) (k : string) (a : A) :
  m !! k = Some a → 0 < size m.
Proof.
  intros H. destruct (decide (size m = 0)) as [Hz|]; [|lia].
  apply map_size_empty_iff in Hz. subst. by rewrite lookup_empty in H.
Qed.

(** C5, as amended.  When the call passes the type guard of [parseObject]
    (the expected type is [object], or the schema's AdditionalProperties
    allow) and the schema carries [x-kubernetes-preserve-unknown-fields]
    set to [true], [parseObject] returns no descriptor and no error,
    whatever the object contains; nothing below it is visited and the
    store is unchanged. *)
Theorem preserve_unknown_fields_opaque
    (rec : value → option loc → string → M (list FieldDescriptor))
    (field : list (string * value)) (schema : loc) (path expectedType : string)
    (σ : store) (s : Schema) :
  σ !! schema = Some s →
  expectedType = "object" ∨ allows s = true →
  Extensions s !! xKubernetesPreserveUnknownFields = Some (VBool true) →
  parseObject rec field schema path expectedType σ = (σ, Ok []).
Proof.
  intros Hs Hguard Hext.
  unfold Parser.parseObject, mbind, M_bind, bind, load. rewrite Hs.
  assert (bool_decide (expectedType ≠ "object") && negb (allows s) = false) as ->.
  { destruct Hguard as [->| ->].
    - by rewrite bool_decide_eq_false_2 by (intros ?; done).
    - by rewrite andb_false_r. }
  rewrite decide_True by (by eapply lookup_size_pos).
  by rewrite Hext.
Qed.
Lemma retyped_set_Type (t : string) (s : Schema) : retyped t s (set_Type [t] s).
Proof. by destruct s. Qed.

(** C10, amended.  The traversal changes an allocated schema in one way
    only: the assignment of [validateSchema] in the union case.  Every cell
    of the store is found again after [parseResource], either as it was, or
    it was a union whose first [OneOf] alternative has a first type [t] and
    it now has [[t]] for [Type] and every other field as before; a cell
    that is not a union is as it was; and when the schema argument is a
    union whose first alternative has a first type [t], [validateSchema]
    writes such a cell through the pointer, returns no error, and the cell
    is still there when the traversal returns. *)
Theorem traversal_only_overwrites_union_type
    (resource : value) (schema : option loc) (path : string)
    (σ σ' : store) (r : outcome (list FieldDescriptor)) :
  parseResource resource schema path σ = (σ', r) →
  (∀ l s, σ !! l = Some s →
     σ' !! l = Some s
     ∨ ∃ s' alt alts t ts,
         σ' !! l = Some s' ∧ length (Type_ s) ≠ 1
         ∧ OneOf s = alt :: alts ∧ Type_ alt = t :: ts ∧ retyped t s s')
  ∧ (∀ l s, σ !! l = Some s → ¬ is_union s → σ' !! l = Some s)
  ∧ (∀ p s alt alts t ts,
       schema = Some p → σ !! p = Some s →
       length (Type_ s) ≠ 1 → OneOf s = alt :: alts → Type_ alt = t :: ts →
       ∃ s', validateSchema schema path σ = (<[p := s']> σ, Ok ())
             ∧ retyped t s s' ∧ σ' !! p = Some s').
Proof.
  intros Hrun. pose proof (frames_parseResource _ _ _ _ _ _ Hrun) as Hframe.
  split_and!.
  - intros l s Hl. destruct (Hframe l s Hl) as [?|(s' & Hl' & Hov)]; [by left|].
    destruct Hov as (alt & alts & t & ts & Hlen & Hone & Halt & ->).
    right. exists (set_Type [t] s), alt, alts, t, ts.
    split_and!; [done..|apply retyped_set_Type].
  - intros l s Hl Hnu. destruct (Hframe l s Hl) as [?|(s' & _ & Hov)]; [done|].
    destruct Hov as (alt & alts & t & ts & Hlen & Hone & _). destruct Hnu.
    split; [done|]. by rewrite Hone.
  - intros p s alt alts t ts -> Hp Hlen Hone Halt.
    assert (validateSchema (Some p) path σ = (<[p := set_Type [t] s]> σ, Ok ())) as Hv.
    { unfold validateSchema, mbind, M_bind, bind, load. rewrite Hp.
      rewrite decide_True by done. by rewrite Hone, Halt. }
    exists (set_Type [t] s). split_and!; [done|apply retyped_set_Type|].
    rewrite parseResource_unfold, Hv in Hrun.
    assert (only_union_overwrites (<[p := set_Type [t] s]> σ) σ') as Hrest.
    { destruct (getExpectedType p (<[p := set_Type [t] s]> σ)) as [σ2 [et|e|e]] eqn:E2;
        pose proof (frames_getExpectedType _ _ _ _ E2) as H2.
      - eapply only_union_overwrites_trans; [done|].
        destruct resource; try (by eapply frames_parseScalarTypes).
        + injection Hrun as <- _. apply only_union_overwrites_refl.
        + revert Hrun. unfold Parser.parseObject. apply frames_bind; [apply frames_load|].
          intros c. case_match; [apply frames_fail|].
          repeat case_match; auto using frames_ret, frames_panic;
            apply frames_parseObject_range, Forall_forall;
            intros; apply frames_parseResource.
        + revert Hrun. unfold Parser.parseArray. case_match; [apply frames_fail|].
          apply frames_bind; [apply frames_getArrayItemSchema|]. intros q.
          apply frames_parseArray_range, Forall_forall;
            intros; apply frames_parseResource.
        + by eapply frames_parseString.
      - by injection Hrun as <- _.
      - by injection Hrun as <- _. }
    destruct (Hrest p (set_Type [t] s)) as [?|(s' & _ & Hov)]; [|done|].
    + apply list_lookup_insert_eq. by eapply lookup_lt_Some.
    + destruct Hov as (? & ? & ? & ? & Hl & _). done.
Qed.

(** *** The extraction does not depend on the order of map entries *)

Local Abbreviation extract := (Pure.extract isStandaloneExpression extractExpressions).
Local Abbreviation extractString :=
  (Pure.extractString isStandaloneExpression extractExpressions).

Lemma same_up_to_order_refl {A} (o : option (list A)) : same_up_to_order o o.
Proof. destruct o; simpl; [reflexivity|done]. Qed.

Lemma same_up_to_order_sym {A} (o1 o2 : option (list A)) :
  same_up_to_order o1 o2 → same_up_to_order o2 o1.
Proof. destruct o1, o2; simpl; auto. by symmetry. Qed.

Lemma same_up_to_order_trans {A} (o1 o2 o3 : option (list A)) :
  same_up_to_order o1 o2 → same_up_to_order o2 o3 → same_up_to_order o1 o3.
Proof. destruct o1, o2, o3; simpl; try done. intros. by etrans. Qed.

Lemma collect_pointwise {A B} (f g : A → option (list B)) (l1 l2 : list A) :
  Forall2 (λ a b, same_up_to_order (f a) (g b)) l1 l2 →
  same_up_to_order (collect f l1) (collect g l2).
Proof.
  induction 1 as [|a b l1 l2 Hab _ IH]; simpl; [done|].
  destruct (f a), (g b); simpl in Hab; try done.
  destruct (collect f l1), (collect g l2); simpl in IH; try done.
  simpl. by apply Permutation_app.
Qed.

Lemma collect_permutation {A B} (f : A → option (list B)) (l1 l2 : list A) :
  l1 ≡ₚ l2 → same_up_to_order (collect f l1) (collect f l2).
Proof.
  induction 1 as [|a l1 l2 _ IH|a b l|l1 l2 l3 _ IH1 _ IH2]; simpl.
  - done.
  - destruct (f a); [|done].
    destruct (collect f l1), (collect f l2); simpl in IH; try done.
    simpl. by apply Permutation_app.
  - destruct (f a), (f b), (collect f l); simpl; try done.
    rewrite !(assoc_L (++)). apply Permutation_app; [|done]. apply Permutation_app_comm.
  - by eapply same_up_to_order_trans.
Qed.

Lemma collect_indexed_pointwise {A B} (f g : nat → A → option (list B))
    (l1 l2 : list A) :
  Forall2 (λ a b, ∀ i, same_up_to_order (f i a) (g i b)) l1 l2 →
  ∀ i, same_up_to_order (collect_indexed f l1 i) (collect_indexed g l2 i).
Proof.
  induction 1 as [|a b l1 l2 Hab _ IH]; intros i; simpl; [done|].
  specialize (Hab i). specialize (IH (S i)).
  destruct (f i a), (g i b); simpl in Hab; try done.
  destruct (collect_indexed f l1 (S i)), (collect_indexed g l2 (S i));
    simpl in IH; try done.
  simpl. by apply Permutation_app.
Qed.

Lemma extract_unfold (σ0 : store) (resource : value) (schema : Schema) (path : string) :
  extract σ0 resource schema path
  = match validated schema with
    | None => None
    | Some s =>
        match expectedTypeOf s with
        | None => None
        | Some expectedType =>
            match resource with
            | VNil => Some []
            | VMap field =>
                if bool_decide (expectedType ≠ "object") && negb (allows s) then None
                else
                  match preservesUnknownFields s with
                  | None => None
                  | Some true => Some []
                  | Some false =>
                      collect
                        (λ e, match fieldSchemaOf σ0 s e.1 with
                              | Some fieldSchema =>
                                  extract σ0 e.2 fieldSchema (joinPathAndFieldName path e.1)
                              | None => None
                              end)
                        field
                  end
            | VSlice field =>
                if decide (expectedType ≠ "array") then None
                else
                  match itemSchemaOf σ0 s with
                  | None => None
                  | Some itemSchema =>
                      collect_indexed
                        (λ i item, extract σ0 item itemSchema
                                     (path +:+ "[" +:+ Str.of_nat i +:+ "]"))
                        field 0
                  end
            | VString field => extractString field s path expectedType
            | _ => if scalarAccepted resource expectedType then Some [] else None
            end
        end
    end.
Proof. destruct resource; reflexivity. Qed.

Lemma extract_same_document (σ0 : store) (v1 : value) :
  ∀ v2 s path, same_document v1 v2 →
    same_up_to_order (extract σ0 v1 s path) (extract σ0 v2 s path).
Proof.
  induction v1 as [|entries IH|items IH|str|b|n|n|n|n|t] using value_nested_ind;
    intros v2 s path Hsame;
    inversion Hsame as [|? m m2 Hperm Hall|? items2 Hall]; subst;
    try apply same_up_to_order_refl.
  - rewrite !extract_unfold.
    destruct (validated s) as [s'|]; [|done].
    destruct (expectedTypeOf s') as [et|]; [|done].
    case_match; [done|].
    destruct (preservesUnknownFields s') as [[]|]; [apply same_up_to_order_refl| |done].
    set (f := λ e : string * value,
           match fieldSchemaOf σ0 s' e.1 with
           | Some fieldSchema => extract σ0 e.2 fieldSchema (joinPathAndFieldName path e.1)
           | None => None
           end).
    apply (same_up_to_order_trans _ (collect f m)); [by apply collect_permutation|].
    apply collect_pointwise.
    assert (Forall (λ e, ∀ v2 s path, same_document e.2 v2 →
              same_up_to_order (extract σ0 e.2 s path) (extract σ0 v2 s path)) m) as IHm.
    { eapply Forall_forall. intros e He. rewrite Forall_forall in IH.
      apply IH. by rewrite Hperm. }
    clear -IHm Hall. induction Hall as [|[k1 a] [k2 b] l1 l2 [Hk Hab] _ IH2]; [done|].
    apply Forall_cons in IHm as [Ha IHm]. constructor; [|by apply IH2].
    unfold f. simpl in *. subst k2. destruct (fieldSchemaOf σ0 s' k1); [|done]. by apply Ha.
  - rewrite !extract_unfold.
    destruct (validated s) as [s'|]; [|done].
    destruct (expectedTypeOf s') as [et|]; [|done].
    case_match; [done|]. destruct (itemSchemaOf σ0 s') as [si|]; [|done].
    apply collect_indexed_pointwise.
    clear -IH Hall. induction Hall as [|a b l1 l2 Hab _ IH2]; [done|].
    apply Forall_cons in IH as [Ha IH]. constructor; [|by apply IH2].
    intros i. by apply Ha.
Qed.

(** *** A run computes the extraction *)

(** The cell [c] holds the schema [s] of the initial store, as it was or
    after the union assignment. *)
Definition cell_of (s c : Schema) : Prop := c = s ∨ union_overwrite s c.

(** The schemas the descriptors point to have a single type: no later
    step of the traversal writes to them. *)
Definition settled (σ : store) (l : list FieldDescriptor) : Prop :=
  Forall (λ d, ∀ q, ExpectedSchema d = Some q →
                ∃ c, σ !! q = Some c ∧ length (Type_ c) = 1) l.

Lemma single_type_stable (σ σ' : store) (q : loc) (c : Schema) :
  only_union_overwrites σ σ' → σ !! q = Some c → length (Type_ c) = 1 →
  σ' !! q = Some c.
Proof.
  intros Hf Hq Hlen. destruct (Hf q c Hq) as [?|(c' & _ & Hov)]; [done|].
  destruct Hov as (? & ? & ? & ? & Hne & _). done.
Qed.

Lemma settled_stable (σ σ' : store) (l : list FieldDescriptor) :
  only_union_overwrites σ σ' → settled σ l →
  settled σ' l ∧ extracted σ' <$> l = extracted σ <$> l.
Proof.
  intros Hf. induction 1 as [|d l Hd _ [IH1 IH2]]; [split; [constructor|done]|].
  split.
  - constructor; [|done]. intros q Hq. destruct (Hd q Hq) as (c & Hc & Hlen).
    exists c. split; [|done]. by eapply single_type_stable.
  - rewrite !fmap_cons. f_equal; [|done].
    unfold extracted. f_equal. destruct (ExpectedSchema d) as [q|]; [|done]. simpl.
    destruct (Hd q eq_refl) as (c & Hc & Hlen). rewrite Hc.
    by eapply single_type_stable.
Qed.

Lemma settled_app (σ : store) (l1 l2 : list FieldDescriptor) :
  settled σ l1 → settled σ l2 → settled σ (l1 ++ l2).
Proof. apply Forall_app_2. Qed.

Lemma closed_set_Type (n : nat) (ty : list string) (s : Schema) :
  closed n s → closed n (set_Type ty s).
Proof. intros [s' H1 H2 H3]. by constructor. Qed.

Lemma closed_emptySchema (n : nat) : closed n emptySchema.
Proof. constructor; simpl; try done; intros k fs H; by rewrite lookup_empty in H. Qed.

Lemma cell_of_lookup (σ0 σ : store) (q : loc) (s : Schema) :
  only_union_overwrites σ0 σ → σ0 !! q = Some s →
  ∃ c, σ !! q = Some c ∧ cell_of s c.
Proof.
  intros Hf Hq. destruct (Hf q s Hq) as [?|(c & ? & ?)].
  - exists s. split; [done|by left].
  - exists c. split; [done|by right].
Qed.

Lemma validateSchema_refines (σ : store) (p : loc) (c s : Schema) (path : string)
    (σ1 : store) (r : outcome ()) :
  σ !! p = Some c → cell_of s c →
  validateSchema (Some p) path σ = (σ1, r) →
  match validated s with
  | Some s' => r = Ok () ∧ σ1 !! p = Some s' ∧ length (Type_ s') = 1
  | None => r ≠ Ok ()
  end.
Proof.
  intros Hp Hcell. unfold validateSchema, validated, mbind, M_bind, bind, load.
  rewrite Hp. destruct Hcell as [->|(alt & alts & t & ts & Hlen & Hone & Halt & ->)].
  - destruct (decide (length (Type_ s) ≠ 1)) as [Hlen|Hlen].
    + destruct (OneOf s) as [|alt alts]; [by intros [= <- <-]|].
      destruct (Type_ alt) as [|t ts]; [by intros [= <- <-]|].
      unfold write. intros [= <- <-]. split_and!; [done| |done].
      apply list_lookup_insert_eq. by eapply lookup_lt_Some.
    + intros [= <- <-]. split_and!; [done..|]. by destruct (decide (length (Type_ s) = 1)).
  - rewrite decide_False by (simpl; lia).
    rewrite decide_True by done. rewrite Hone, Halt.
    by intros [= <- <-].
Qed.

Lemma getExpectedType_eq (σ : store) (p : loc) (s : Schema) :
  σ !! p = Some s →
  getExpectedType p σ
  = (σ, match expectedTypeOf s with
        | Some et => Ok et
        | None => Panic index_out_of_range
        end).
Proof.
  intros Hp. unfold getExpectedType, expectedTypeOf, mbind, M_bind, bind, load.
  rewrite Hp. destruct (Type_ s) as [|t ts]; [done|].
  destruct (decide (t ≠ "")); [done|]. by destruct (allows s).
Qed.

Lemma parseScalarTypes_eq (field : value) (path expectedType : string) (σ : store) :
  ∃ r, parseScalarTypes field path expectedType σ = (σ, r)
       ∧ if scalarAccepted field expectedType then r = Ok [] else ∀ l, r ≠ Ok l.
Proof.
  unfold parseScalarTypes, scalarAccepted.
  repeat case_match; subst; eexists; (split; [reflexivity|]); done.
Qed.

Lemma parseString_refines (field : string) (p : loc) (s : Schema)
    (path expectedType : string) (σ : store) :
  σ !! p = Some s → length (Type_ s) = 1 →
  ∃ r, parseString field p path expectedType σ = (σ, r)
       ∧ match extractString field s path expectedType with
         | Some pv => ∃ l, r = Ok l ∧ extracted σ <$> l = pv ∧ settled σ l
         | None => ∀ l, r ≠ Ok l
         end.
Proof.
  intros Hp Hlen.
  unfold Parser.parseString, Pure.extractString, mbind, M_bind, bind, lift.
  destruct (isStandaloneExpression field) as [[]|e|e]; simpl.
  - eexists. split; [reflexivity|]. eexists. split; [reflexivity|]. split.
    + unfold extracted. simpl. by rewrite Hp.
    + constructor; [|constructor]. simpl. intros q [= <-]. eauto.
  - case_match.
    + eexists. split; [reflexivity|]. done.
    + destruct (extractExpressions field) as [es|e|e]; simpl.
      * case_match; (eexists; split; [reflexivity|]); eexists;
          (split; [reflexivity|]); (split; [done|]).
        -- constructor; [|constructor]. by intros q [=].
        -- constructor.
      * eexists. split; [reflexivity|]. done.
      * eexists. split; [reflexivity|]. done.
  - eexists. split; [reflexivity|]. done.
  - eexists. split; [reflexivity|]. done.
Qed.

Lemma getFieldSchema_refines (σ0 σ : store) (p : loc) (s : Schema) (k : string)
    (σ1 : store) (r : outcome loc) :
  closed_store σ0 → closed (length σ0) s →
  only_union_overwrites σ0 σ → σ !! p = Some s →
  getFieldSchema p k σ = (σ1, r) →
  match fieldSchemaOf σ0 s k with
  | Some fs => ∃ q cq, r = Ok q ∧ σ1 !! q = Some cq ∧ cell_of fs cq
                       ∧ closed (length σ0) fs
  | None => ∀ q, r ≠ Ok q
  end.
Proof.
  intros Hσ0 Hs Hf Hp.
  unfold getFieldSchema, fieldSchemaOf, mbind, M_bind, bind, load. rewrite Hp.
  inversion Hs as [? Hap Hit Hprops]; subst.
  destruct (Properties s !! k) as [fs|] eqn:Hk.
  { intros [= <- <-]. exists (length σ), fs. split_and!; [done| |by left|by eapply Hprops].
    by rewrite lookup_app_r, Nat.sub_diag. }
  destruct (AdditionalProperties s) as [[a [q|]]|] eqn:Hap'.
  - assert (ret q σ = (σ1, r) → ∃ q0 cq, r = Ok q0 ∧ σ1 !! q0 = Some cq
              ∧ cell_of (default emptySchema (σ0 !! q)) cq
              ∧ closed (length σ0) (default emptySchema (σ0 !! q))
              ∧ is_Some (σ0 !! q)) as Hret.
    { intros [= <- <-]. specialize (Hap _ eq_refl). simpl in Hap.
      destruct (lookup_lt_is_Some_2 σ0 q Hap) as [sq Hq]. rewrite Hq. simpl.
      destruct (cell_of_lookup _ _ _ _ Hf Hq) as (cq & Hcq & Hcell).
      exists q, cq. split_and!; [done|done|done|by eapply Hσ0|by eexists]. }
    destruct a; intros Hrun; destruct (Hret Hrun) as (q0 & cq & ? & ? & ? & ? & [sq Hsq]);
      rewrite Hsq in *; simpl in *; eauto 10.
  - destruct a.
    + intros [= <- <-]. exists (length σ), emptySchema.
      split_and!; [done| |by left|apply closed_emptySchema].
      by rewrite lookup_app_r, Nat.sub_diag.
    + by intros [= <- <-].
  - by intros [= <- <-].
Qed.

Lemma getArrayItemSchema_refines (σ0 σ : store) (p : loc) (s : Schema) (path : string)
    (σ1 : store) (r : outcome loc) :
  closed_store σ0 → closed (length σ0) s → σ !! p = Some s →
  getArrayItemSchema p path σ = (σ1, r) →
  σ1 = σ ∧
  match itemSchemaOf σ0 s with
  | Some si => ∃ q, r = Ok q ∧ σ0 !! q = Some si
  | None => ∀ q, r ≠ Ok q
  end.
Proof.
  intros Hσ0 Hs Hp.
  unfold getArrayItemSchema, itemSchemaOf, mbind, M_bind, bind, load.
  rewrite Hp. inversion Hs as [? Hap Hit Hprops]; subst.
  destruct (Items s) as [[[q|]]|] eqn:Hitems; try by intros [= <- <-].
  intros [= <- <-]. split; [done|]. specialize (Hit _ eq_refl). simpl in Hit.
  destruct (lookup_lt_is_Some_2 σ0 q Hit) as [sq Hq]. rewrite Hq. eauto.
Qed.

(** What a run from [σ] on a cell of [s] must deliver: the extraction
    computed in the initial store [σ0], read off the final store. *)
Definition delivers (σ0 : store) (pv : option (list Extracted))
    (before : list Extracted) (σ' : store) (r : outcome (list FieldDescriptor)) : Prop :=
  match pv with
  | Some pv => ∃ l, r = Ok l ∧ extracted σ' <$> l = before ++ pv ∧ settled σ' l
  | None => ∀ l, r ≠ Ok l
  end.

Definition refines (v : value) : Prop :=
  ∀ σ0 σ p c s path σ' r,
    closed_store σ0 → only_union_overwrites σ0 σ →
    σ !! p = Some c → cell_of s c → closed (length σ0) s →
    parseResource v (Some p) path σ = (σ', r) →
    delivers σ0 (extract σ0 v s path) [] σ' r.

Lemma parseObject_range_refines (σ0 : store) (p : loc) (s : Schema) (path : string)
    (field : list (string * value)) :
  closed_store σ0 → closed (length σ0) s → length (Type_ s) = 1 →
  Forall (λ e, refines e.2) field →
  ∀ acc σ σ' r,
    only_union_overwrites σ0 σ → σ !! p = Some s → settled σ acc →
    parseObject_range parseResource p path field acc σ = (σ', r) →
    delivers σ0
      (collect (λ e, match fieldSchemaOf σ0 s e.1 with
                     | Some fieldSchema =>
                         extract σ0 e.2 fieldSchema (joinPathAndFieldName path e.1)
                     | None => None
                     end) field)
      (extracted σ <$> acc) σ' r.
Proof.
  intros Hσ0 Hs Hlen. induction 1 as [|[k v] rest Hv _ IH];
    intros acc σ σ' r Hf Hp Hacc; simpl.
  - intros [= <- <-]. exists acc. by rewrite app_nil_r.
  - destruct (getFieldSchema p k σ) as [σ1 [q|e|e]] eqn:E1;
      pose proof (frames_getFieldSchema _ _ _ _ _ E1) as Hf1;
      pose proof (getFieldSchema_refines _ _ _ _ _ _ _ Hσ0 Hs Hf Hp E1) as H1;
      destruct (fieldSchemaOf σ0 s k) as [fs|];
      try (destruct H1 as (? & ? & [=] & _); fail);
      try (by intros [= <- <-]);
      try (by destruct (H1 q)).
    destruct H1 as (q' & cq & [= <-] & Hq & Hcell & Hfs).
    assert (only_union_overwrites σ0 σ1) as Hf01
      by eauto using only_union_overwrites_trans.
    destruct (parseResource v (Some q) (joinPathAndFieldName path k) σ1)
      as [σ2 [l1|e|e]] eqn:E2;
      pose proof (frames_parseResource _ _ _ _ _ _ E2) as Hf2;
      pose proof (Hv _ _ _ _ _ _ _ _ Hσ0 Hf01 Hq Hcell Hfs E2) as H2;
      simpl in H2; unfold delivers in H2;
      destruct (extract σ0 v fs (joinPathAndFieldName path k)) as [pv1|];
      try (destruct H2 as (? & [=] & _); fail);
      try (by intros [= <- <-]);
      try (by destruct (H2 l1)).
    destruct H2 as (l1' & [= <-] & Hl1 & Hset1). simpl in Hl1.
    assert (only_union_overwrites σ σ2) as Hf02
      by eauto using only_union_overwrites_trans.
    destruct (settled_stable _ _ _ Hf02 Hacc) as [Hacc2 Heq2].
    intros Hrun.
    assert (only_union_overwrites σ0 σ2) as Hf0
      by eauto using only_union_overwrites_trans.
    pose proof (IH (acc ++ l1) σ2 σ' r Hf0
                  (single_type_stable _ _ _ _ Hf02 Hp Hlen)
                  (settled_app _ _ _ Hacc2 Hset1) Hrun) as H3.
    unfold delivers in *.
    destruct (collect _ rest) as [pv2|]; [|done].
    destruct H3 as (l & -> & Hl & Hset). exists l. split_and!; [done| |done].
    rewrite Hl, fmap_app, Heq2, Hl1. by rewrite (assoc_L (++)).
Qed.

Lemma parseArray_range_refines (σ0 : store) (q : loc) (sq : Schema) (path : string)
    (field : list value) :
  closed_store σ0 → σ0 !! q = Some sq →
  Forall refines field →
  ∀ i acc σ σ' r,
    only_union_overwrites σ0 σ → settled σ acc →
    parseArray_range parseResource q path field i acc σ = (σ', r) →
    delivers σ0
      (collect_indexed (λ i item, extract σ0 item sq
                                    (path +:+ "[" +:+ Str.of_nat i +:+ "]")) field i)
      (extracted σ <$> acc) σ' r.
Proof.
  intros Hσ0 Hq. induction 1 as [|v rest Hv _ IH];
    intros i acc σ σ' r Hf Hacc; simpl.
  - intros [= <- <-]. exists acc. by rewrite app_nil_r.
  - destruct (cell_of_lookup _ _ _ _ Hf Hq) as (cq & Hcq & Hcell).
    destruct (parseResource v (Some q) (path +:+ "[" +:+ Str.of_nat i +:+ "]") σ)
      as [σ2 [l1|e|e]] eqn:E2;
      pose proof (frames_parseResource _ _ _ _ _ _ E2) as Hf2;
      pose proof (Hv _ _ _ _ _ _ _ _ Hσ0 Hf Hcq Hcell (Hσ0 _ _ Hq) E2) as H2;
      simpl in H2; unfold delivers in H2;
      destruct (extract σ0 v sq (path +:+ "[" +:+ Str.of_nat i +:+ "]")) as [pv1|];
      try (destruct H2 as (? & [=] & _); fail);
      try (by intros [= <- <-]);
      try (by destruct (H2 l1)).
    destruct H2 as (l1' & [= <-] & Hl1 & Hset1). simpl in Hl1.
    destruct (settled_stable _ _ _ Hf2 Hacc) as [Hacc2 Heq2].
    intros Hrun.
    assert (only_union_overwrites σ0 σ2) as Hf0
      by eauto using only_union_overwrites_trans.
    pose proof (IH (S i) (acc ++ l1) σ2 σ' r Hf0
                  (settled_app _ _ _ Hacc2 Hset1) Hrun) as H3.
    unfold delivers in *.
    destruct (collect_indexed _ rest (S i)) as [pv2|]; [|done].
    destruct H3 as (l & -> & Hl & Hset). exists l. split_and!; [done| |done].
    rewrite Hl, fmap_app, Heq2, Hl1. by rewrite (assoc_L (++)).
Qed.

Lemma parseResource_refines (v : value) : refines v.
Proof.
  induction v as [|entries IH|items IH|str|b|n|n|n|n|t] using value_nested_ind;
    intros σ0 σ p c s path σ' r Hσ0 Hf Hp Hcell Hs;
    rewrite parseResource_unfold, extract_unfold;
    (destruct (validateSchema (Some p) path σ) as [σ1 [[]|e|e]] eqn:E1;
      pose proof (frames_validateSchema _ _ _ _ _ E1) as Hf1;
      pose proof (validateSchema_refines _ _ _ _ _ _ _ Hp Hcell E1) as H1;
      destruct (validated s) as [s'|] eqn:Hval;
      try (destruct H1 as ([=] & _); fail);
      try (by intros [= <- <-]);
      try done);
    destruct H1 as (_ & Hp1 & Hlen);
    rewrite (getExpectedType_eq _ _ _ Hp1);
    (destruct (expectedTypeOf s') as [et|]; [|by intros [= <- <-]]);
    assert (only_union_overwrites σ0 σ1) as Hf01
      by eauto using only_union_overwrites_trans;
    assert (closed (length σ0) s') as Hs'
      by (revert Hval; unfold validated; repeat case_match; intros [= <-];
          auto using closed_set_Type);
    unfold delivers.
  - intros [= <- <-]. exists []. split_and!; [done..|constructor].
  - unfold Parser.parseObject, mbind, M_bind, bind, load. rewrite Hp1.
    case_match; [by intros [= <- <-]|].
    unfold preservesUnknownFields.
    destruct (if decide (0 < size (Extensions s'))
              then Extensions s' !! xKubernetesPreserveUnknownFields
              else None) as [[| | | |[]| | | | |]|];
      try (by intros [= <- <-]).
    + intros [= <- <-]. exists []. split_and!; [done..|constructor].
    + intros Hrun.
      apply (parseObject_range_refines σ0 p s' path entries Hσ0 Hs' Hlen IH
               [] σ1 σ' r Hf01 Hp1 (Forall_nil_2 _) Hrun).
    + intros Hrun.
      apply (parseObject_range_refines σ0 p s' path entries Hσ0 Hs' Hlen IH
               [] σ1 σ' r Hf01 Hp1 (Forall_nil_2 _) Hrun).
  - unfold Parser.parseArray, mbind, M_bind, bind.
    destruct (decide (et ≠ "array")); [by intros [= <- <-]|].
    destruct (getArrayItemSchema p path σ1) as [σ2 [q|e|e]] eqn:E2;
      destruct (getArrayItemSchema_refines _ _ _ _ _ _ _ Hσ0 Hs' Hp1 E2) as [-> H2];
      destruct (itemSchemaOf σ0 s') as [si|];
      try (destruct H2 as (? & [=] & _); fail);
      try (by intros [= <- <-]);
      try (by destruct (H2 q)).
    destruct H2 as (q' & [= <-] & Hq). intros Hrun.
    apply (parseArray_range_refines σ0 q si path items Hσ0 Hq IH
             0 [] σ1 σ' r Hf01 (Forall_nil_2 _) Hrun).
  - destruct (parseString_refines str p s' path et σ1 Hp1 Hlen) as (r' & -> & H).
    by intros [= <- <-].
  - destruct (parseScalarTypes_eq (VBool b) path et σ1) as (r' & -> & H).
    intros [= <- <-]. destruct (scalarAccepted _ _); [|done]. subst.
    exists []. split_and!; [done..|constructor].
  - destruct (parseScalarTypes_eq (VInt n) path et σ1) as (r' & -> & H).
    intros [= <- <-]. destruct (scalarAccepted _ _); [|done]. subst.
    exists []. split_and!; [done..|constructor].
  - destruct (parseScalarTypes_eq (VInt32 n) path et σ1) as (r' & -> & H).
    intros [= <- <-]. destruct (scalarAccepted _ _); [|done]. subst.
    exists []. split_and!; [done..|constructor].
  - destruct (parseScalarTypes_eq (VInt64 n) path et σ1) as (r' & -> & H).
    intros [= <- <-]. destruct (scalarAccepted _ _); [|done]. subst.
    exists []. split_and!; [done..|constructor].
  - destruct (parseScalarTypes_eq (VFloat64 n) path et σ1) as (r' & -> & H).
    intros [= <- <-]. destruct (scalarAccepted _ _); [|done]. subst.
    exists []. split_and!; [done..|constructor].
  - destruct (parseScalarTypes_eq (VOther t) path et σ1) as (r' & -> & H).
    intros [= <- <-]. destruct (scalarAccepted _ _); [|done]. subst.
    exists []. split_and!; [done..|constructor].
Qed.

(** X1.  Two calls of [ParseResource] on the same document and the same
    schema pointer, whatever order their [range] statements visit the map
    entries in, either both fail or both succeed, and then they return the
    same descriptors up to order, each descriptor read with the schema it
    points to.  The second call may run on the store the first call left
    behind.  The store has no dangling pointer and the schema pointer is
    [nil] or allocated. *)
Theorem ParseResource_same_up_to_order
    (resource1 resource2 : list (string * value)) (schema : option loc)
    (σ σb σ1 σ2 : store) (r1 r2 : outcome (list FieldDescriptor)) :
  closed_store σ → allocated (length σ) schema →
  only_union_overwrites σ σb →
  same_document (VMap resource1) (VMap resource2) →
  Parser.ParseResource isStandaloneExpression extractExpressions fmtv
    resource1 schema σ = (σ1, r1) →
  Parser.ParseResource isStandaloneExpression extractExpressions fmtv
    resource2 schema σb = (σ2, r2) →
  same_up_to_order (successful σ1 r1) (successful σ2 r2).
Proof.
  intros Hσ Hp Hf Hsame. unfold Parser.ParseResource.
  destruct schema as [p|].
  2:{ rewrite !parseResource_nil. by intros [= <- <-] [= <- <-]. }
  simpl in Hp. destruct (lookup_lt_is_Some_2 σ p Hp) as [s Hs].
  destruct (cell_of_lookup _ _ _ _ Hf Hs) as (c & Hc & Hcell).
  intros Hrun1 Hrun2.
  pose proof (parseResource_refines (VMap resource1) σ σ p s s "" σ1 r1 Hσ
                (only_union_overwrites_refl σ) Hs (or_introl eq_refl)
                (Hσ _ _ Hs) Hrun1) as H1.
  pose proof (parseResource_refines (VMap resource2) σ σb p c s "" σ2 r2 Hσ
                Hf Hc Hcell (Hσ _ _ Hs) Hrun2) as H2.
  pose proof (extract_same_document σ (VMap resource1) (VMap resource2) s "" Hsame) as H.
  unfold delivers in *.
  destruct (extract σ (VMap resource1) s "") as [pv1|],
           (extract σ (VMap resource2) s "") as [pv2|]; simpl in H; try done.
  - destruct H1 as (l1 & -> & E1 & _), H2 as (l2 & -> & E2 & _).
    simpl in *. by rewrite E1, E2.
  - destruct r1 as [l1| |], r2 as [l2| |]; simpl; try done;
      try (by destruct (H1 l1)); by destruct (H2 l2).
Qed.


(** *** Invariants of the descriptors a traversal returns *)

Section traversal_invariant.
(** [Q path d]: the descriptor [d] is acceptable for a call at [path]. *)
Variable Q : string → FieldDescriptor → Prop.
Hypothesis Q_string : ∀ field p path et σ σ' l,
  parseString field p path et σ = (σ', Ok l) → Forall (Q path) l.
Hypothesis Q_field : ∀ path k d, Q (joinPathAndFieldName path k) d → Q path d.
Hypothesis Q_index : ∀ path i d, Q (path +:+ "[" +:+ Str.of_nat i +:+ "]") d → Q path d.

Lemma parseObject_range_invariant
    (rec : value → option loc → string → M (list FieldDescriptor))
    (schema : loc) (path : string) (field : list (string * value)) :
  Forall (λ e, ∀ s p σ σ' l, rec e.2 s p σ = (σ', Ok l) → Forall (Q p) l) field →
  ∀ acc σ σ' l, Forall (Q path) acc →
    parseObject_range rec schema path field acc σ = (σ', Ok l) → Forall (Q path) l.
Proof.
  induction 1 as [|[k v] rest Hv _ IH]; intros acc σ σ' l Hacc; simpl.
  - unfold ret. intros ?; by simplify_eq.
  - destruct (getFieldSchema schema k σ) as [σ1 [q|e|e]]; [|done..].
    destruct (rec v (Some q) (joinPathAndFieldName path k) σ1) as [σ2 [l1|e|e]] eqn:E;
      [|done..].
    apply IH. apply Forall_app_2; [done|].
    eapply Forall_impl; [by eapply Hv|]. intros d. apply Q_field.
Qed.

Lemma parseArray_range_invariant
    (rec : value → option loc → string → M (list FieldDescriptor))
    (itemSchema : loc) (path : string) (field : list value) :
  Forall (λ e, ∀ s p σ σ' l, rec e s p σ = (σ', Ok l) → Forall (Q p) l) field →
  ∀ i acc σ σ' l, Forall (Q path) acc →
    parseArray_range rec itemSchema path field i acc σ = (σ', Ok l) → Forall (Q path) l.
Proof.
  induction 1 as [|v rest Hv _ IH]; intros i acc σ σ' l Hacc; simpl.
  - unfold ret. intros ?; by simplify_eq.
  - destruct (rec v (Some itemSchema) (path +:+ "[" +:+ Str.of_nat i +:+ "]") σ)
      as [σ2 [l1|e|e]] eqn:E; [|done..].
    apply IH. apply Forall_app_2; [done|].
    eapply Forall_impl; [by eapply Hv|]. intros d. apply Q_index.
Qed.

Lemma parseResource_invariant (v : value) :
  ∀ schema path σ σ' l,
    parseResource v schema path σ = (σ', Ok l) → Forall (Q path) l.
Proof.
  induction v as [|entries IH|items IH|str|b|n|n|n|n|t] using value_nested_ind;
    intros schema path σ σ' l;
    (destruct schema as [p|]; [rewrite parseResource_unfold|by rewrite parseResource_nil]);
    (destruct (validateSchema (Some p) path σ) as [σ1 [[]|e|e]]; [|done..]);
    (destruct (getExpectedType p σ1) as [σ2 [et|e|e]]; [|done..]).
  - intros ?; simplify_eq. constructor.
  - unfold Parser.parseObject, mbind, M_bind, bind.
    destruct (load p σ2) as [σ3 [s|e|e]]; [|done..].
    case_match; [done|].
    repeat case_match; try done; try (unfold ret, panic; intros ?; simplify_eq; constructor);
      by apply parseObject_range_invariant.
  - unfold Parser.parseArray, mbind, M_bind, bind.
    case_match; [done|].
    destruct (getArrayItemSchema p path σ2) as [σ3 [q|e|e]]; [|done..].
    by apply parseArray_range_invariant.
  - apply Q_string.
  - destruct (parseScalarTypes_eq (VBool b) path et σ2) as (r & -> & H).
    intros ?; simplify_eq. destruct (scalarAccepted _ _); [simplify_eq; constructor|by destruct (H l)].
  - destruct (parseScalarTypes_eq (VInt n) path et σ2) as (r & -> & H).
    intros ?; simplify_eq. destruct (scalarAccepted _ _); [simplify_eq; constructor|by destruct (H l)].
  - destruct (parseScalarTypes_eq (VInt32 n) path et σ2) as (r & -> & H).
    intros ?; simplify_eq. destruct (scalarAccepted _ _); [simplify_eq; constructor|by destruct (H l)].
  - destruct (parseScalarTypes_eq (VInt64 n) path et σ2) as (r & -> & H).
    intros ?; simplify_eq. destruct (scalarAccepted _ _); [simplify_eq; constructor|by destruct (H l)].
  - destruct (parseScalarTypes_eq (VFloat64 n) path et σ2) as (r & -> & H).
    intros ?; simplify_eq. destruct (scalarAccepted _ _); [simplify_eq; constructor|by destruct (H l)].
  - destruct (parseScalarTypes_eq (VOther t) path et σ2) as (r & -> & H).
    intros ?; simplify_eq. destruct (scalarAccepted _ _); [simplify_eq; constructor|by destruct (H l)].
Qed.
End traversal_invariant.

Lemma has_prefix_nil (s : string) : Str.has_prefix "" s = true.
Proof. by destruct s. Qed.

Lemma has_prefix_app (p x : string) : Str.has_prefix p (p +:+ x) = true.
Proof.
  induction p as [|a p IH]; [apply has_prefix_nil|].
  change (String a p +:+ x) with (String a (p +:+ x)). simpl.
  by rewrite decide_True.
Qed.

Lemma has_prefix_trans (a b c : string) :
  Str.has_prefix a b = true → Str.has_prefix b c = true → Str.has_prefix a c = true.
Proof.
  revert b c. induction a as [|x a IH]; intros b c; [by rewrite has_prefix_nil|].
  destruct b as [|y b]; [done|]. destruct c as [|z c]; [done|]. simpl.
  destruct (decide (x = y)) as [->|]; [|done].
  destruct (decide (y = z)) as [->|]; [|done]. apply IH.
Qed.

Lemma has_prefix_joinPathAndFieldName (path k : string) :
  Str.has_prefix path (joinPathAndFieldName path k) = true.
Proof.
  unfold joinPathAndFieldName. case_match; [apply has_prefix_app|].
  destruct (decide (path = "")) as [->|]; [apply has_prefix_nil|apply has_prefix_app].
Qed.

(** X2.  Every descriptor a successful traversal returns is of one of the
    two kinds of [parseString]: standalone, with its schema pointer set and
    exactly one expression; or embedded, without schema pointer, with
    expected type [string] or [any] and at least one expression. *)
Theorem descriptors_well_formed (v : value) (schema : option loc) (path : string)
    (σ σ' : store) (l : list FieldDescriptor) :
  parseResource v schema path σ = (σ', Ok l) → Forall well_formed l.
Proof.
  apply (parseResource_invariant (λ _, well_formed)); [|done..].
  clear. intros field p path et σ σ' l.
  unfold Parser.parseString, mbind, M_bind, bind, lift, ret, fail.
  destruct (isStandaloneExpression field) as [[]|e|e]; [| |done..].
  - intros ?; simplify_eq. constructor; [|constructor].
    unfold well_formed. simpl. eauto.
  - destruct (bool_decide (et ≠ "string") && bool_decide (et ≠ "any")) eqn:Het; [done|].
    destruct (extractExpressions field) as [es|e|e]; [|done..].
    case_match; intros ?; simplify_eq; constructor; [|constructor].
    unfold well_formed. simpl. split_and!; [done| |done].
    apply andb_false_iff in Het as [Het|Het]; apply bool_decide_eq_false in Het.
    + left. by destruct (decide (et = "string")).
    + right. by destruct (decide (et = "any")).
Qed.

(** X3.  The path of every descriptor a traversal returns extends the path
    the traversal was called with. *)
Theorem descriptor_paths_extend (v : value) (schema : option loc) (path : string)
    (σ σ' : store) (l : list FieldDescriptor) :
  parseResource v schema path σ = (σ', Ok l) →
  Forall (λ d, Str.has_prefix path (Path d) = true) l.
Proof.
  apply (parseResource_invariant (λ p d, Str.has_prefix p (Path d) = true)).
  - clear. intros field p path et σ σ' l.
    unfold Parser.parseString, mbind, M_bind, bind, lift, ret, fail.
    assert (Str.has_prefix path path = true) as Hrefl.
    { clear. induction path as [|a p IH]; [done|]. simpl. by rewrite decide_True. }
    destruct (isStandaloneExpression field) as [[]|e|e]; [| |done..].
    + intros ?; simplify_eq. by constructor.
    + case_match; [done|].
      destruct (extractExpressions field) as [es|e|e]; [|done..].
      case_match; intros ?; simplify_eq; by repeat constructor.
  - intros p k d. apply has_prefix_trans, has_prefix_joinPathAndFieldName.
  - intros p i d. apply has_prefix_trans, has_prefix_app.
Qed.

(** *** Documents without expressions *)

Local Abbreviation plain := (Coverage.plain isStandaloneExpression extractExpressions).

Lemma parseObject_range_plain
    (rec : value → option loc → string → M (list FieldDescriptor))
    (schema : loc) (path : string) (field : list (string * value)) :
  Forall (λ e, ∀ s p σ σ' l, rec e.2 s p σ = (σ', Ok l) → l = []) field →
  ∀ σ σ' l, parseObject_range rec schema path field [] σ = (σ', Ok l) → l = [].
Proof.
  induction 1 as [|[k v] rest Hv _ IH]; intros σ σ' l; simpl.
  - unfold ret. intros ?; by simplify_eq.
  - destruct (getFieldSchema schema k σ) as [σ1 [q|e|e]]; [|done..].
    destruct (rec v (Some q) (joinPathAndFieldName path k) σ1) as [σ2 [l1|e|e]] eqn:E;
      [|done..].
    rewrite (Hv _ _ _ _ _ E). apply IH.
Qed.

Lemma parseArray_range_plain
    (rec : value → option loc → string → M (list FieldDescriptor))
    (itemSchema : loc) (path : string) (field : list value) :
  Forall (λ e, ∀ s p σ σ' l, rec e s p σ = (σ', Ok l) → l = []) field →
  ∀ i σ σ' l, parseArray_range rec itemSchema path field i [] σ = (σ', Ok l) → l = [].
Proof.
  induction 1 as [|v rest Hv _ IH]; intros i σ σ' l; simpl.
  - unfold ret. intros ?; by simplify_eq.
  - destruct (rec v (Some itemSchema) (path +:+ "[" +:+ Str.of_nat i +:+ "]") σ)
      as [σ2 [l1|e|e]] eqn:E; [|done..].
    rewrite (Hv _ _ _ _ _ E). apply IH.
Qed.

(** X4.  A document none of whose strings holds an expression yields no
    descriptor: when the traversal succeeds, its list is empty. *)
Theorem no_expression_no_descriptor (v : value) :
  ∀ (schema : option loc) (path : string) (σ σ' : store) (l : list FieldDescriptor),
    Forall plain (strings_of v) →
    parseResource v schema path σ = (σ', Ok l) → l = [].
Proof.
  induction v as [|entries IH|items IH|str|b|n|n|n|n|t] using value_nested_ind;
    intros schema path σ σ' l Hplain;
    (destruct schema as [p|]; [rewrite parseResource_unfold|by rewrite parseResource_nil]);
    (destruct (validateSchema (Some p) path σ) as [σ1 [[]|e|e]]; [|done..]);
    (destruct (getExpectedType p σ1) as [σ2 [et|e|e]]; [|done..]).
  - intros ?; by simplify_eq.
  - unfold Parser.parseObject, mbind, M_bind, bind.
    destruct (load p σ2) as [σ3 [s|e|e]]; [|done..].
    case_match; [done|].
    assert (Forall (λ e, ∀ s p σ σ' l,
              parseResource e.2 s p σ = (σ', Ok l) → l = []) entries) as Hall.
    { apply Forall_forall. intros e He s0 p0 σa σb l0.
      rewrite Forall_forall in IH. apply (IH e He).
      apply Forall_forall. intros x Hx. rewrite Forall_forall in Hplain.
      apply Hplain. simpl. apply list_elem_of_In, in_flat_map.
      exists e. split; by apply list_elem_of_In. }
    repeat case_match; try done;
      try (unfold ret, panic; intros ?; by simplify_eq);
      by apply parseObject_range_plain.
  - unfold Parser.parseArray, mbind, M_bind, bind.
    case_match; [done|].
    destruct (getArrayItemSchema p path σ2) as [σ3 [q|e|e]]; [|done..].
    apply parseArray_range_plain.
    apply Forall_forall. intros e He s0 p0 σa σb l0.
    rewrite Forall_forall in IH. apply (IH e He).
    apply Forall_forall. intros x Hx. rewrite Forall_forall in Hplain.
    apply Hplain. simpl. apply list_elem_of_In, in_flat_map.
    exists e. split; by apply list_elem_of_In.
  - apply Forall_inv in Hplain as [Hs He].
    unfold Parser.parseString, mbind, M_bind, bind, lift, ret, fail.
    rewrite Hs. case_match; [done|]. rewrite He.
    rewrite decide_False by (simpl; lia). intros ?; by simplify_eq.
  - destruct (parseScalarTypes_eq (VBool b) path et σ2) as (r & -> & H).
    intros ?; simplify_eq. destruct (scalarAccepted _ _); [by simplify_eq|by destruct (H l)].
  - destruct (parseScalarTypes_eq (VInt n) path et σ2) as (r & -> & H).
    intros ?; simplify_eq. destruct (scalarAccepted _ _); [by simplify_eq|by destruct (H l)].
  - destruct (parseScalarTypes_eq (VInt32 n) path et σ2) as (r & -> & H).
    intros ?; simplify_eq. destruct (scalarAccepted _ _); [by simplify_eq|by destruct (H l)].
  - destruct (parseScalarTypes_eq (VInt64 n) path et σ2) as (r & -> & H).
    intros ?; simplify_eq. destruct (scalarAccepted _ _); [by simplify_eq|by destruct (H l)].
  - destruct (parseScalarTypes_eq (VFloat64 n) path et σ2) as (r & -> & H).
    intros ?; simplify_eq. destruct (scalarAccepted _ _); [by simplify_eq|by destruct (H l)].
  - destruct (parseScalarTypes_eq (VOther t) path et σ2) as (r & -> & H).
    intros ?; simplify_eq. destruct (scalarAccepted _ _); [by simplify_eq|by destruct (H l)].
Qed.

(** *** [validateSchema] and [parseScalarTypes] on their own *)

(** X6.  After a successful [validateSchema] the schema has exactly one
    type, and validating it again, at whatever path, succeeds and leaves
    the store as it is. *)
Theorem validateSchema_settles (schema : option loc) (path : string) (σ σ1 : store) :
  validateSchema schema path σ = (σ1, Ok ()) →
  (∃ p s, schema = Some p ∧ σ1 !! p = Some s ∧ length (Type_ s) = 1)
  ∧ ∀ path', validateSchema schema path' σ1 = (σ1, Ok ()).
Proof.
  destruct schema as [p|]; [|done].
  unfold validateSchema, mbind, M_bind, bind, load, write, ret, fail, panic.
  destruct (σ !! p) as [s|] eqn:Hp; [|done].
  destruct (decide (length (Type_ s) ≠ 1)) as [Hlen|Hlen].
  - destruct (OneOf s) as [|alt alts]; [done|].
    destruct (Type_ alt) as [|t ts]; [done|]. intros [= <-].
    assert (<[p:=set_Type [t] s]> σ !! p = Some (set_Type [t] s)) as Hp1.
    { apply list_lookup_insert_eq. by eapply lookup_lt_Some. }
    split; [by exists p, (set_Type [t] s)|]. intros path'. rewrite Hp1.
    by rewrite decide_False by (simpl; lia).
  - intros [= <-]. assert (length (Type_ s) = 1) by lia.
    split; [by exists p, s|]. intros path'. rewrite Hp. by rewrite decide_False.
Qed.

(** X8.  [parseScalarTypes] never returns a descriptor and never touches
    the store.  It accepts the value exactly when the expected type is
    [any], or [number] for a float64, or [integer] for an int, int32 or
    int64, or [boolean] for a bool; in every other case it returns an
    error. *)
Theorem parseScalarTypes_accepts (field : value) (path expectedType : string) (σ : store) :
  (parseScalarTypes field path expectedType σ = (σ, Ok [])
   ↔ expectedType = "any"
     ∨ (expectedType = "number" ∧ ∃ bits, field = VFloat64 bits)
     ∨ (expectedType = "integer" ∧ ∃ n, field = VInt n ∨ field = VInt32 n ∨ field = VInt64 n)
     ∨ (expectedType = "boolean" ∧ ∃ b, field = VBool b))
  ∧ (parseScalarTypes field path expectedType σ = (σ, Ok [])
     ∨ ∃ msg, parseScalarTypes field path expectedType σ = (σ, Err msg)).
Proof.
  unfold parseScalarTypes, ret, fail.
  destruct (decide (expectedType = "any")) as [->|Hany]; [naive_solver|].
  destruct (decide (expectedType = "number")) as [->|Hnum];
    [destruct field; naive_solver|].
  destruct (decide (expectedType = "integer")) as [->|Hint];
    [destruct field; simpl; naive_solver|].
  destruct (decide (expectedType = "boolean")) as [->|Hbool];
    [destruct field; naive_solver|].
  naive_solver.
Qed.

(** *** Fields the schema does not describe *)

Lemma same_fields_after (σ σ' : store) (p : loc) (s : Schema) :
  only_union_overwrites σ σ' → σ !! p = Some s →
  ∃ c, σ' !! p = Some c
       ∧ Properties c = Properties s
       ∧ AdditionalProperties c = AdditionalProperties s
       ∧ Extensions c = Extensions s
       ∧ Items c = Items s.
Proof.
  intros Hf Hp. destruct (Hf p s Hp) as [?|(c & Hc & Hov)]; [by exists s|].
  exists c. split; [done|]. by destruct Hov as (? & ? & ? & ? & _ & _ & _ & ->).
Qed.

Lemma parseObject_range_unknown_field (p : loc) (s : Schema) (path k : string)
    (v : value) (field : list (string * value)) :
  AdditionalProperties s = None → Properties s !! k = None → (k, v) ∈ field →
  ∀ acc σ c σ' r,
    σ !! p = Some c → Properties c = Properties s →
    AdditionalProperties c = AdditionalProperties s →
    parseObject_range parseResource p path field acc σ = (σ', r) →
    ∀ l, r ≠ Ok l.
Proof.
  intros Hap Hk. induction field as [|[k' v'] rest IH]; intros Hin; [by apply elem_of_nil in Hin|].
  intros acc σ c σ' r Hp Hprops Haps. simpl.
  destruct (getFieldSchema p k' σ) as [σ1 [q|e|e]] eqn:E1; try by intros [= <- <-].
  pose proof (frames_getFieldSchema _ _ _ _ _ E1) as Hf1.
  apply elem_of_cons in Hin as [[= <- <-]|Hin].
  { revert E1. unfold getFieldSchema, mbind, M_bind, bind, load. rewrite Hp.
    by rewrite Hprops, Hk, Haps, Hap. }
  destruct (parseResource v' (Some q) (joinPathAndFieldName path k') σ1)
    as [σ2 [l1|e|e]] eqn:E2; try by intros [= <- <-].
  pose proof (frames_parseResource _ _ _ _ _ _ E2) as Hf2.
  destruct (same_fields_after σ σ2 p c) as (c2 & Hc2 & Hp2 & Ha2 & _);
    [by eapply only_union_overwrites_trans|done|].
  apply (IH Hin _ _ c2); congruence.
Qed.

(** X9.  An object that holds a field the schema does not describe (no
    such property, no AdditionalProperties) is rejected wherever the
    iteration over the map meets that field, unless the schema makes the
    object opaque with [x-kubernetes-preserve-unknown-fields]. *)
Theorem unknown_field_rejected (field : list (string * value)) (p : loc) (s : Schema)
    (path k : string) (v : value) (σ σ' : store) (r : outcome (list FieldDescriptor)) :
  σ !! p = Some s →
  AdditionalProperties s = None → Properties s !! k = None →
  Extensions s !! xKubernetesPreserveUnknownFields ≠ Some (VBool true) →
  (k, v) ∈ field →
  parseResource (VMap field) (Some p) path σ = (σ', r) →
  to_option r = None.
Proof.
  intros Hp Hap Hk Hext Hin Hrun.
  cut (∀ l, r ≠ Ok l); [intros H; destruct r as [l| |]; [by destruct (H l)|done..]|].
  revert Hrun. rewrite parseResource_unfold.
  destruct (validateSchema (Some p) path σ) as [σ1 [[]|e|e]] eqn:E1;
    try by intros [= <- <-].
  pose proof (frames_validateSchema _ _ _ _ _ E1) as Hf1.
  destruct (getExpectedType p σ1) as [σ2 [et|e|e]] eqn:E2; try by intros [= <- <-].
  pose proof (frames_getExpectedType _ _ _ _ E2) as Hf2.
  destruct (same_fields_after σ σ2 p s) as (c & Hc & Hprops & Haps & Hexts & _);
    [by eapply only_union_overwrites_trans|done|].
  unfold Parser.parseObject, mbind, M_bind, bind, load. rewrite Hc.
  case_match; [by intros [= <- <-]|].
  rewrite Hexts.
  destruct (decide (0 < size (Extensions s))).
  - destruct (Extensions s !! xKubernetesPreserveUnknownFields) as [[| | | |[]| | | | |]|];
      try (by intros [= <- <-]); try done;
      by eapply parseObject_range_unknown_field.
  - by eapply parseObject_range_unknown_field.
Qed.

(** *** Descriptors and the schemas they point to *)

Lemma points_to_its_type_stable (σ σ' : store) (l : list FieldDescriptor) :
  only_union_overwrites σ σ' →
  Forall (points_to_its_type σ) l → Forall (points_to_its_type σ') l.
Proof.
  intros Hf Hl. eapply Forall_impl; [exact Hl|]. intros d Hd q Hq.
  destruct (Hd q Hq) as (c & t & Hc & Ht & Het). exists c, t. split_and!; [|done..].
  eapply single_type_stable; [done..|]. by rewrite Ht.
Qed.

Lemma validateSchema_single (p : loc) (path : string) (σ σ1 : store) :
  validateSchema (Some p) path σ = (σ1, Ok ()) →
  ∃ s, σ1 !! p = Some s ∧ length (Type_ s) = 1.
Proof.
  unfold validateSchema, mbind, M_bind, bind, load, write, ret, fail, panic.
  destruct (σ !! p) as [s|] eqn:Hp; [|done].
  destruct (decide (length (Type_ s) ≠ 1)) as [Hlen|Hlen].
  - destruct (OneOf s) as [|alt alts]; [done|].
    destruct (Type_ alt) as [|t ts]; [done|]. intros [= <-].
    exists (set_Type [t] s). split; [|done].
    apply list_lookup_insert_eq. by eapply lookup_lt_Some.
  - intros [= <-]. exists s. split; [done|lia].
Qed.

Lemma parseObject_range_points
    (rec : value → option loc → string → M (list FieldDescriptor))
    (schema : loc) (path : string) (field : list (string * value)) :
  Forall (λ e, ∀ s p, frames (rec e.2 s p)) field →
  Forall (λ e, ∀ s p σ σ' l, rec e.2 s p σ = (σ', Ok l) →
                 Forall (points_to_its_type σ') l) field →
  ∀ acc σ σ' l, Forall (points_to_its_type σ) acc →
    parseObject_range rec schema path field acc σ = (σ', Ok l) →
    Forall (points_to_its_type σ') l.
Proof.
  intros Hfr Hall. induction Hall as [|[k v] rest Hv _ IH];
    intros acc σ σ' l Hacc; simpl.
  - unfold ret. intros ?; by simplify_eq.
  - apply Forall_cons in Hfr as [Hfv Hfr].
    destruct (getFieldSchema schema k σ) as [σ1 [q|e|e]] eqn:E1; [|done..].
    pose proof (frames_getFieldSchema _ _ _ _ _ E1) as Hf1.
    destruct (rec v (Some q) (joinPathAndFieldName path k) σ1) as [σ2 [l1|e|e]] eqn:E2;
      [|done..].
    pose proof (Hfv _ _ _ _ _ E2) as Hf2.
    apply (IH Hfr). apply Forall_app_2; [|by eapply Hv].
    eapply points_to_its_type_stable; [|done].
    by eapply only_union_overwrites_trans.
Qed.

Lemma parseArray_range_points
    (rec : value → option loc → string → M (list FieldDescriptor))
    (itemSchema : loc) (path : string) (field : list value) :
  Forall (λ e, ∀ s p, frames (rec e s p)) field →
  Forall (λ e, ∀ s p σ σ' l, rec e s p σ = (σ', Ok l) →
                 Forall (points_to_its_type σ') l) field →
  ∀ i acc σ σ' l, Forall (points_to_its_type σ) acc →
    parseArray_range rec itemSchema path field i acc σ = (σ', Ok l) →
    Forall (points_to_its_type σ') l.
Proof.
  intros Hfr Hall. induction Hall as [|v rest Hv _ IH];
    intros i acc σ σ' l Hacc; simpl.
  - unfold ret. intros ?; by simplify_eq.
  - apply Forall_cons in Hfr as [Hfv Hfr].
    destruct (rec v (Some itemSchema) (path +:+ "[" +:+ Str.of_nat i +:+ "]") σ)
      as [σ2 [l1|e|e]] eqn:E2; [|done..].
    pose proof (Hfv _ _ _ _ _ E2) as Hf2.
    apply (IH Hfr). apply Forall_app_2; [|by eapply Hv].
    by eapply points_to_its_type_stable.
Qed.

(** X5.  In the store a successful traversal leaves behind, every
    descriptor that has a schema pointer points to an allocated schema with
    exactly one type, and the descriptor's expected type is the one
    [getExpectedType] reads off that schema. *)
Theorem descriptors_point_to_their_type (v : value) :
  ∀ (schema : option loc) (path : string) (σ σ' : store) (l : list FieldDescriptor),
    parseResource v schema path σ = (σ', Ok l) →
    Forall (points_to_its_type σ') l.
Proof.
  induction v as [|entries IH|items IH|str|b|n|n|n|n|t] using value_nested_ind;
    intros schema path σ σ' l;
    (destruct schema as [p|]; [rewrite parseResource_unfold|by rewrite parseResource_nil]);
    (destruct (validateSchema (Some p) path σ) as [σ1 [[]|e|e]] eqn:E1; [|done..]);
    destruct (validateSchema_single _ _ _ _ E1) as (s & Hp1 & Hlen);
    rewrite (getExpectedType_eq _ _ _ Hp1);
    (destruct (expectedTypeOf s) as [et|] eqn:Het; [|done]).
  - intros ?; simplify_eq. constructor.
  - unfold Parser.parseObject, mbind, M_bind, bind, load. rewrite Hp1.
    case_match; [done|].
    assert (Forall (λ e, ∀ s p, frames (parseResource e.2 s p)) entries) as Hfr.
    { apply Forall_forall. intros e _ s0 p0. apply frames_parseResource. }
    repeat case_match; try done;
      try (unfold ret, panic; intros ?; simplify_eq; constructor);
      by apply parseObject_range_points.
  - unfold Parser.parseArray, mbind, M_bind, bind.
    case_match; [done|].
    destruct (getArrayItemSchema p path σ1) as [σ3 [q|e|e]]; [|done..].
    apply parseArray_range_points; [|done|constructor].
    apply Forall_forall. intros e _ s0 p0. apply frames_parseResource.
  - unfold Parser.parseString, mbind, M_bind, bind, lift, ret, fail.
    destruct (isStandaloneExpression str) as [[]|e|e]; [| |done..].
    + intros ?; simplify_eq. constructor; [|constructor].
      intros q [= <-]. simpl.
      unfold expectedTypeOf in Het. destruct (Type_ s) as [|t [|? ?]] eqn:Hty; try done.
      exists s, t. split_and!; [done|done|]. by injection Het as <-.
    + case_match; [done|].
      destruct (extractExpressions str) as [es|e|e]; [|done..].
      case_match; intros ?; simplify_eq; repeat constructor. by intros q [=].
  - destruct (parseScalarTypes_eq (VBool b) path et σ1) as (r & -> & H).
    intros ?; simplify_eq. destruct (scalarAccepted _ _); [simplify_eq; constructor|by destruct (H l)].
  - destruct (parseScalarTypes_eq (VInt n) path et σ1) as (r & -> & H).
    intros ?; simplify_eq. destruct (scalarAccepted _ _); [simplify_eq; constructor|by destruct (H l)].
  - destruct (parseScalarTypes_eq (VInt32 n) path et σ1) as (r & -> & H).
    intros ?; simplify_eq. destruct (scalarAccepted _ _); [simplify_eq; constructor|by destruct (H l)].
  - destruct (parseScalarTypes_eq (VInt64 n) path et σ1) as (r & -> & H).
    intros ?; simplify_eq. destruct (scalarAccepted _ _); [simplify_eq; constructor|by destruct (H l)].
  - destruct (parseScalarTypes_eq (VFloat64 n) path et σ1) as (r & -> & H).
    intros ?; simplify_eq. destruct (scalarAccepted _ _); [simplify_eq; constructor|by destruct (H l)].
  - destruct (parseScalarTypes_eq (VOther t) path et σ1) as (r & -> & H).
    intros ?; simplify_eq. destruct (scalarAccepted _ _); [simplify_eq; constructor|by destruct (H l)].
Qed.

(** X7.  A [nil] value is accepted under every schema that
    [validateSchema] accepts, whatever type the schema declares: the
    traversal returns no descriptor and no error, and the store is the one
    [validateSchema] left. *)
Theorem nil_value_accepted (p : loc) (path : string) (σ σ1 : store) :
  validateSchema (Some p) path σ = (σ1, Ok ()) →
  parseResource VNil (Some p) path σ = (σ1, Ok []).
Proof.
  intros E1. rewrite parseResource_unfold, E1.
  destruct (validateSchema_single _ _ _ _ E1) as (s & Hp1 & Hlen).
  rewrite (getExpectedType_eq _ _ _ Hp1). unfold expectedTypeOf.
  by destruct (Type_ s).
Qed.

End WithHelpers.

(** *** Scenarios, run with the expression scanner *)

Lemma preserve_unknown_fields_opaque_witness :
  Parser.parseObject Scanner.fmtv Scanner.parseResource
    [("replicas", VString "${schema.spec.replicas}")] 0 "spec" "object"
    [ {| Type_ := ["object"]; OneOf := []; AdditionalProperties := None;
         Properties := ∅; Items := None;
         Extensions := {[ xKubernetesPreserveUnknownFields := VBool true ]} |} ]
  = ([ {| Type_ := ["object"]; OneOf := []; AdditionalProperties := None;
          Properties := ∅; Items := None;
          Extensions := {[ xKubernetesPreserveUnknownFields := VBool true ]} |} ],
     Ok []).
Proof.
  eapply (preserve_unknown_fields_opaque Scanner.fmtv).
  - reflexivity.
  - left. reflexivity.
  - vm_compute. reflexivity.
Defined.

(** C5, the claim as stated fails: a schema of type [string] that carries
    the extension set to [true] does not make [parseObject] return the
    empty list.  The type guard comes first and rejects the object with an
    error, whatever the [%v] verb prints and whatever the recursive call
    would do. *)
Lemma preserve_unknown_fields_type_guard_first :
  let s := {| Type_ := ["string"]; OneOf := []; AdditionalProperties := None;
              Properties := ∅; Items := None;
              Extensions := {[ xKubernetesPreserveUnknownFields := VBool true ]} |} in
  Extensions s !! xKubernetesPreserveUnknownFields = Some (VBool true)
  ∧ getExpectedType 0 [s] = ([s], Ok "string")
  ∧ (∀ (fmtv : value → string)
       (rec : value → option loc → string → M (list FieldDescriptor)),
       (∃ msg, Parser.parseObject fmtv rec [] 0 "spec" "string" [s] = ([s], Err msg))
       ∧ Parser.parseObject fmtv rec [] 0 "spec" "string" [s] ≠ ([s], Ok []))
  ∧ to_option (Parser.parseObject Scanner.fmtv Scanner.parseResource
                 [] 0 "spec" "string" [s]).2 = None.
Proof.
  intros s. split_and!; [vm_compute; reflexivity..| |vm_compute; reflexivity].
  intros fmtv rec.
  assert (∃ msg, Parser.parseObject fmtv rec [] 0 "spec" "string" [s] = ([s], Err msg))
    as [msg Hmsg] by (eexists; reflexivity).
  split; [by exists msg|]. rewrite Hmsg. intros [=].
Qed.

(** C9.  A union schema whose first alternative declares no type: the
    index [schema.OneOf[0].Type[0]] is out of range and [validateSchema]
    panics, and so does the traversal that called it. *)
Theorem validateSchema_union_without_type_panics :
  let s := {| Type_ := []; OneOf := [emptySchema]; AdditionalProperties := None;
              Properties := ∅; Items := None; Extensions := ∅ |} in
  length (Type_ s) ≠ 1 ∧ 0 < length (OneOf s)
  ∧ validateSchema (Some 0) "spec.size" [s] = ([s], Panic index_out_of_range)
  ∧ Scanner.parseResource (VInt 3) (Some 0) "spec.size" [s] = ([s], Panic index_out_of_range).
Proof. vm_compute. split_and!; try reflexivity; lia. Qed.

(** C1.  The field [${has(x.y) ? x.y : {}}] is a standalone expression whose
    text between the delimiters is [has(x.y) ? x.y : {}].  The descriptor
    that [parseString] emits is standalone, carries the expected type and
    the schema pointer, but its expression has lost the braces of the map
    literal: [strings.Trim] removes every trailing [}], not only the
    closing delimiter. *)
Theorem standalone_expression_trimmed_too_far :
  let field := "${has(x.y) ? x.y : {}}" in
  Scanner.isStandaloneExpression field = Ok true
  ∧ Scanner.extractExpressions field = Ok ["has(x.y) ? x.y : {}"]
  ∧ Scanner.parseResource (VString field) (Some 0) "metadata.labels" [typed "object"]
    = ([typed "object"],
       Ok [ {| Path := "metadata.labels";
               Expressions := ["has(x.y) ? x.y : "];
               ExpectedType := "object";
               ExpectedSchema := Some 0;
               StandaloneExpression := true |} ]).
Proof. vm_compute. split_and!; reflexivity. Qed.

(** The boundary scenario of the specification: a field of declared type
    [integer]. *)
Example integer_field_standalone :
  Scanner.parseResource (VString "${db.status.port}") (Some 0) "spec.port" [typed "integer"]
  = ([typed "integer"],
     Ok [ {| Path := "spec.port";
             Expressions := ["db.status.port"];
             ExpectedType := "integer";
             ExpectedSchema := Some 0;
             StandaloneExpression := true |} ]).
Proof. vm_compute. reflexivity. Qed.

Example integer_field_embedded :
  Scanner.parseResource (VString "port-${db.status.port}") (Some 0) "spec.port" [typed "integer"]
  = ([typed "integer"],
     Err "expected string type or AdditionalProperties for path spec.port, got port-${db.status.port}").
Proof. vm_compute. reflexivity. Qed.

Example string_field_embedded :
  Scanner.parseResource (VString "port-${db.status.port}") (Some 0) "spec.dsn" [typed "string"]
  = ([typed "string"],
     Ok [ {| Path := "spec.dsn";
             Expressions := ["db.status.port"];
             ExpectedType := "string";
             ExpectedSchema := None;
             StandaloneExpression := false |} ]).
Proof. vm_compute. reflexivity. Qed.

(** *** Paths *)

(** The three cases of [joinPathAndFieldName]. *)
Lemma joinPathAndFieldName_cases (path fieldName : string) :
  (fieldName = "" ∨ Str.contains_char "." fieldName = true →
     joinPathAndFieldName path fieldName = path +:+ "[" +:+ Quote fieldName +:+ "]")
  ∧ (fieldName ≠ "" → Str.contains_char "." fieldName = false → path = "" →
     joinPathAndFieldName path fieldName = fieldName)
  ∧ (fieldName ≠ "" → Str.contains_char "." fieldName = false → path ≠ "" →
     joinPathAndFieldName path fieldName = path +:+ "." +:+ fieldName).
Proof.
  unfold joinPathAndFieldName. split_and!.
  - intros [-> | ->]; [done|]. by rewrite orb_true_r.
  - intros Hne -> ->. by rewrite bool_decide_eq_false_2.
  - intros Hne -> Hp. rewrite bool_decide_eq_false_2 by done. simpl.
    by rewrite decide_False.
Qed.

(** C6.  Two distinct (path, name) pairs with the same encoding: the empty
    field name under [a], and the field named [a[""]] at the root.  The
    name of the second pair has no dot, so it is written as it is. *)
Theorem joinPathAndFieldName_collision :
  let name := "a[" +:+ Quote "" +:+ "]" in
  ("a", "") ≠ ("", name)
  ∧ joinPathAndFieldName "a" "" = "a[" +:+ Quote "" +:+ "]"
  ∧ joinPathAndFieldName "" name = "a[" +:+ Quote "" +:+ "]"
  ∧ joinPathAndFieldName "a" "" = joinPathAndFieldName "" name.
Proof. vm_compute. split_and!; try reflexivity. intros [=]. Qed.

(** *** The union case, run *)

Lemma traversal_only_overwrites_union_type_witness :
  let s := {| Type_ := []; OneOf := [typed "integer"; typed "string"];
              AdditionalProperties := None; Properties := ∅; Items := None;
              Extensions := ∅ |} in
  let s1 := {| Type_ := ["integer"]; OneOf := [typed "integer"; typed "string"];
               AdditionalProperties := None; Properties := ∅; Items := None;
               Extensions := ∅ |} in
  (∀ l c, [s; typed "string"] !! l = Some c →
     [s1; typed "string"] !! l = Some c
     ∨ ∃ c' alt alts t ts,
         [s1; typed "string"] !! l = Some c' ∧ length (Type_ c) ≠ 1
         ∧ OneOf c = alt :: alts ∧ Type_ alt = t :: ts ∧ retyped t c c')
  ∧ (∀ l c, [s; typed "string"] !! l = Some c → ¬ is_union c →
       [s1; typed "string"] !! l = Some c)
  ∧ (∀ p c alt alts t ts,
       Some 0 = Some p → [s; typed "string"] !! p = Some c →
       length (Type_ c) ≠ 1 → OneOf c = alt :: alts → Type_ alt = t :: ts →
       ∃ c', validateSchema (Some 0) "spec.port" [s; typed "string"]
             = (<[p := c']> [s; typed "string"], Ok ())
             ∧ retyped t c c' ∧ [s1; typed "string"] !! p = Some c').
Proof.
  intros s s1.
  apply (traversal_only_overwrites_union_type
           Scanner.isStandaloneExpression Scanner.extractExpressions Scanner.fmtv
           (VString "${db.status.port}") (Some 0) "spec.port"
           [s; typed "string"] [s1; typed "string"]
           (Ok [ {| Path := "spec.port"; Expressions := ["db.status.port"];
                    ExpectedType := "integer"; ExpectedSchema := Some 0;
                    StandaloneExpression := true |} ])).
  vm_compute. reflexivity.
Defined.

(** C10, the claim as stated fails.  The schema below is in the union case
    of the claim: its [Type] list is empty and [OneOf] has one alternative.
    The alternative declares no type, and [validateSchema] does not
    overwrite anything: the store it leaves is the store it was given, the
    [Type] list of the schema is still empty, and no error value is
    returned either. *)
Lemma union_without_type_is_not_overwritten :
  let s := {| Type_ := []; OneOf := [emptySchema]; AdditionalProperties := None;
              Properties := ∅; Items := None; Extensions := ∅ |} in
  let after := (validateSchema (Some 0) "spec.size" [s]).1 in
  is_union s
  ∧ after = [s]
  ∧ Type_ <$> after !! 0 = Some []
  ∧ (validateSchema (Some 0) "spec.size" [s]).2 ≠ Ok ().
Proof.
  intros s after. split_and!.
  - split; [simpl; lia|done].
  - vm_compute. reflexivity.
  - vm_compute. reflexivity.
  - vm_compute. intros [=].
Qed.

(** *** Map order *)

Lemma closed_leaf (n : nat) (s : Schema) :
  AdditionalProperties s = None → Items s = None → Properties s = ∅ → closed n s.
Proof.
  intros Hap Hit Hprops. constructor.
  - intros ap. by rewrite Hap.
  - intros it. by rewrite Hit.
  - intros k fs. by rewrite Hprops, lookup_empty.
Qed.

Lemma closed_objectOf (n : nat) (props : list (string * Schema)) :
  Forall (λ e, closed n e.2) props → closed n (objectOf props).
Proof.
  intros Hall. constructor; simpl; [done..|].
  intros k fs Hk%elem_of_list_to_map_2. rewrite Forall_forall in Hall.
  by apply (Hall (k, fs)).
Qed.

Lemma closed_store_two_strings :
  closed_store [objectOf [("host", typed "string"); ("port", typed "string")]].
Proof.
  intros [|l] s Hl; [|done]. injection Hl as <-. apply closed_objectOf.
  apply Forall_cons_2; [by apply closed_leaf|].
  apply Forall_cons_2; [by apply closed_leaf|]. apply Forall_nil_2.
Qed.

(** Visiting [host] before [port] or [port] before [host] gives the two
    descriptors in a different order. *)
Example map_order_shows_in_the_result :
  let σ := [objectOf [("host", typed "string"); ("port", typed "string")]] in
  let host := ("host", VString "${db.status.host}") in
  let port := ("port", VString "${db.status.port}") in
  same_document (VMap [host; port]) (VMap [port; host])
  ∧ (λ l : list FieldDescriptor, Path <$> l) <$> to_option (Scanner.ParseResource [host; port] (Some 0) σ).2
    = Some ["host"; "port"]
  ∧ (λ l : list FieldDescriptor, Path <$> l) <$> to_option (Scanner.ParseResource [port; host] (Some 0) σ).2
    = Some ["port"; "host"].
Proof.
  split_and!; [|vm_compute; reflexivity..].
  eapply same_map; [apply perm_swap|].
  apply Forall2_cons_2; [split; [done|apply same_refl]|].
  apply Forall2_cons_2; [split; [done|apply same_refl]|]. apply Forall2_nil_2.
Qed.

Lemma ParseResource_same_up_to_order_witness :
  let σ := [objectOf [("host", typed "string"); ("port", typed "string")]] in
  let host := ("host", VString "${db.status.host}") in
  let port := ("port", VString "${db.status.port}") in
  let run1 := Scanner.ParseResource [host; port] (Some 0) σ in
  let run2 := Scanner.ParseResource [port; host] (Some 0) σ in
  same_up_to_order (successful run1.1 run1.2) (successful run2.1 run2.2).
Proof.
  intros σ host port run1 run2.
  apply (ParseResource_same_up_to_order
           Scanner.isStandaloneExpression Scanner.extractExpressions Scanner.fmtv
           [host; port] [port; host] (Some 0) σ σ).
  - apply closed_store_two_strings.
  - simpl. lia.
  - apply only_union_overwrites_refl.
  - eapply same_map; [apply perm_swap|].
    apply Forall2_cons_2; [split; [done|apply same_refl]|].
    apply Forall2_cons_2; [split; [done|apply same_refl]|]. apply Forall2_nil_2.
  - apply surjective_pairing.
  - apply surjective_pairing.
Defined.




(** *** Invariants, run *)

Lemma descriptors_well_formed_witness :
  Forall well_formed
    [ {| Path := "spec.ports[0]"; Expressions := ["db.status.port"];
         ExpectedType := "string"; ExpectedSchema := Some 1;
         StandaloneExpression := true |};
      {| Path := "spec.ports[1]"; Expressions := ["db.status.port"];
         ExpectedType := "string"; ExpectedSchema := None;
         StandaloneExpression := false |} ].
Proof.
  apply (descriptors_well_formed
           Scanner.isStandaloneExpression Scanner.extractExpressions Scanner.fmtv
           (VMap portsDocument) (Some 0) "" portsStore
           (Scanner.ParseResource portsDocument (Some 0) portsStore).1).
  vm_compute. reflexivity.
Defined.

Lemma descriptor_paths_extend_witness :
  Forall (λ d, Str.has_prefix "spec.ports" (Path d) = true)
    [ {| Path := "spec.ports[0]"; Expressions := ["db.status.port"];
         ExpectedType := "string"; ExpectedSchema := Some 1;
         StandaloneExpression := true |};
      {| Path := "spec.ports[1]"; Expressions := ["db.status.port"];
         ExpectedType := "string"; ExpectedSchema := None;
         StandaloneExpression := false |} ].
Proof.
  apply (descriptor_paths_extend
           Scanner.isStandaloneExpression Scanner.extractExpressions Scanner.fmtv
           (VSlice [VString "${db.status.port}"; VString "tcp-${db.status.port}"])
           (Some 0) "spec.ports" [arrayOf 1; typed "string"]
           [arrayOf 1; typed "string"]).
  vm_compute. reflexivity.
Defined.

Lemma no_expression_no_descriptor_witness :
  (Scanner.parseResource
     (VMap [("name", VString "web"); ("replicas", VInt 3)]) (Some 0) ""
     [objectOf [("name", typed "string"); ("replicas", typed "integer")]]).2
  = Ok [] ∧ [] = ([] : list FieldDescriptor).
Proof.
  split; [vm_compute; reflexivity|]. symmetry.
  apply (no_expression_no_descriptor
           Scanner.isStandaloneExpression Scanner.extractExpressions Scanner.fmtv
           (VMap [("name", VString "web"); ("replicas", VInt 3)]) (Some 0) ""
           [objectOf [("name", typed "string"); ("replicas", typed "integer")]]
           (Scanner.parseResource
              (VMap [("name", VString "web"); ("replicas", VInt 3)]) (Some 0) ""
              [objectOf [("name", typed "string"); ("replicas", typed "integer")]]).1).
  - apply Forall_cons_2; [split; reflexivity|apply Forall_nil_2].
  - vm_compute. reflexivity.
Defined.

Lemma validateSchema_settles_witness :
  let s := {| Type_ := []; OneOf := [typed "integer"; typed "string"];
              AdditionalProperties := None; Properties := ∅; Items := None;
              Extensions := ∅ |} in
  (∃ p c, Some 0 = Some p ∧ [set_Type ["integer"] s] !! p = Some c
          ∧ length (Type_ c) = 1)
  ∧ ∀ path', validateSchema (Some 0) path' [set_Type ["integer"] s]
             = ([set_Type ["integer"] s], Ok ()).
Proof.
  intros s. apply (validateSchema_settles (Some 0) "spec.port" [s]).
  vm_compute. reflexivity.
Defined.

Lemma unknown_field_rejected_witness :
  to_option (Scanner.parseResource
               (VMap [("replicas", VInt 3); ("colour", VString "red")]) (Some 0) "spec"
               [objectOf [("replicas", typed "integer")]]).2 = None.
Proof.
  apply (unknown_field_rejected
           Scanner.isStandaloneExpression Scanner.extractExpressions Scanner.fmtv
           [("replicas", VInt 3); ("colour", VString "red")] 0
           (objectOf [("replicas", typed "integer")]) "spec" "colour" (VString "red")
           [objectOf [("replicas", typed "integer")]]
           (Scanner.parseResource
              (VMap [("replicas", VInt 3); ("colour", VString "red")]) (Some 0) "spec"
              [objectOf [("replicas", typed "integer")]]).1).
  - reflexivity.
  - reflexivity.
  - vm_compute. reflexivity.
  - vm_compute. intros [=].
  - apply list_elem_of_further, list_elem_of_here.
  - apply surjective_pairing.
Defined.

Example unknown_field_message :
  (Scanner.parseResource
     (VMap [("replicas", VInt 3); ("colour", VString "red")]) (Some 0) "spec"
     [objectOf [("replicas", typed "integer")]]).2
  = Err "error getting field schema for path spec.colour: schema not found for field colour".
Proof. vm_compute. reflexivity. Qed.

Lemma descriptors_point_to_their_type_witness :
  Forall (points_to_its_type (Scanner.ParseResource portsDocument (Some 0) portsStore).1)
    [ {| Path := "spec.ports[0]"; Expressions := ["db.status.port"];
         ExpectedType := "string"; ExpectedSchema := Some 1;
         StandaloneExpression := true |};
      {| Path := "spec.ports[1]"; Expressions := ["db.status.port"];
         ExpectedType := "string"; ExpectedSchema := None;
         StandaloneExpression := false |} ].
Proof.
  apply (descriptors_point_to_their_type
           Scanner.isStandaloneExpression Scanner.extractExpressions Scanner.fmtv
           (VMap portsDocument) (Some 0) "" portsStore).
  vm_compute. reflexivity.
Defined.

Lemma nil_value_accepted_witness :
  Scanner.parseResource VNil (Some 0) "spec.replicas" [typed "integer"]
  = ([typed "integer"], Ok []).
Proof.
  apply (nil_value_accepted
           Scanner.isStandaloneExpression Scanner.extractExpressions Scanner.fmtv
           0 "spec.replicas" [typed "integer"] [typed "integer"]).
  vm_compute. reflexivity.
Defined.

End ParserProps.

(** ** Patterns and Kubernetes objects *)

Module ObjectsProps.
Import Graph Parser Objects.

Lemma app_cons (c : ascii) (s t : string) : String c s +:+ t = String c (s +:+ t).
Proof. reflexivity. Qed.

Lemma app_nil_r (s : string) : s +:+ "" = s.
Proof. induction s as [|c s IH]; [done|]. by rewrite app_cons, IH. Qed.

Lemma app_assoc (s t u : string) : (s +:+ t) +:+ u = s +:+ (t +:+ u).
Proof. induction s as [|c s IH]; [done|]. by rewrite !app_cons, IH. Qed.

Lemma app_eq_nil (s t : string) : s +:+ t = "" → s = "" ∧ t = "".
Proof. destruct s; [done|]. by rewrite app_cons. Qed.

(** *** Matching by derivatives decides the language of the pattern *)

Lemma lang_nil_nullable (r : regex) (s : string) : lang r s → s = "" → nullable r = true.
Proof.
  induction 1 as [|rs c Hc|r1 r2 s1 s2 _ IH1 _ IH2|r1 r2 s _ IH|r1 r2 s _ IH|r|r s1 s2 _ _ _ _];
    intros Hs; simpl; try done.
  - apply app_eq_nil in Hs as [-> ->]. by rewrite IH1, IH2.
  - by rewrite IH.
  - rewrite IH by done. apply orb_true_r.
Qed.

Lemma nullable_lang (r : regex) : nullable r = true ↔ lang r "".
Proof.
  split; [|intros H; by eapply lang_nil_nullable].
  induction r as [| |rs|r1 IH1 r2 IH2|r1 IH1 r2 IH2|r IH]; simpl; try done.
  - intros _. constructor.
  - intros [H1 H2]%andb_true_iff. apply (lang_cat r1 r2 "" ""); auto.
  - intros [H|H]%orb_true_iff; [apply lang_alt_l|apply lang_alt_r]; auto.
  - intros _. constructor.
Qed.

Lemma deriv_sound (r : regex) (c : ascii) :
  ∀ s, lang (deriv c r) s → lang r (String c s).
Proof.
  induction r as [| |rs|r1 IH1 r2 IH2|r1 IH1 r2 IH2|r IH]; intros s; simpl.
  - inversion 1.
  - inversion 1.
  - destruct (in_class rs c) eqn:Hc; inversion 1; subst. by constructor.
  - destruct (nullable r1) eqn:Hn.
    + intros H. inversion H as [| | |? ? ? Hl|? ? ? Hr| |]; subst.
      * inversion Hl as [| |? ? s1 s2 H1 H2| | | |]; subst.
        rewrite <- app_cons. constructor; auto.
      * apply (lang_cat r1 r2 "" (String c s)); [by apply nullable_lang|auto].
    + inversion 1 as [| |? ? s1 s2 H1 H2| | | |]; subst.
      rewrite <- app_cons. constructor; auto.
  - inversion 1; subst; [apply lang_alt_l|apply lang_alt_r]; auto.
  - inversion 1 as [| |? ? s1 s2 H1 H2| | | |]; subst.
    rewrite <- app_cons. constructor; auto.
Qed.

Lemma deriv_complete (r : regex) (s0 : string) :
  lang r s0 → ∀ c s, s0 = String c s → lang (deriv c r) s.
Proof.
  induction 1 as [|rs c' Hc|r1 r2 s1 s2 H1 IH1 H2 IH2|r1 r2 s' _ IH|r1 r2 s' _ IH
                  |r|r s1 s2 H1 IH1 H2 IH2];
    intros c s Hs; simpl; try done.
  - injection Hs as -> <-. rewrite Hc. constructor.
  - destruct s1 as [|c1 s1].
    + change ("" +:+ s2) with s2 in Hs. subst s2. apply nullable_lang in H1. rewrite H1.
      apply lang_alt_r. by apply IH2.
    + rewrite app_cons in Hs. injection Hs as -> <-.
      assert (lang (Cat (deriv c r1) r2) (s1 +:+ s2)) by (constructor; auto).
      destruct (nullable r1); [by apply lang_alt_l|done].
  - apply lang_alt_l. by apply IH.
  - apply lang_alt_r. by apply IH.
  - destruct s1 as [|c1 s1].
    + change ("" +:+ s2) with s2 in Hs. by apply (IH2 c s).
    + rewrite app_cons in Hs. injection Hs as -> <-. constructor; auto.
Qed.

Lemma MatchString_lang (r : regex) (s : string) : MatchString r s = true ↔ lang r s.
Proof.
  revert r. induction s as [|c s IH]; intros r; simpl.
  - apply nullable_lang.
  - rewrite IH. split; [apply deriv_sound|]. intros H. by eapply deriv_complete.
Qed.

(** *** Reading [kubernetesVersionRegex] *)

Lemma lang_cat_inv (r1 r2 : regex) (s : string) :
  lang (Cat r1 r2) s ↔ ∃ s1 s2, s = s1 +:+ s2 ∧ lang r1 s1 ∧ lang r2 s2.
Proof.
  split.
  - inversion 1; subst; eauto.
  - intros (s1 & s2 & -> & H1 & H2). by constructor.
Qed.

Lemma lang_alt_inv (r1 r2 : regex) (s : string) :
  lang (Alt r1 r2) s ↔ lang r1 s ∨ lang r2 s.
Proof.
  split.
  - inversion 1; subst; eauto.
  - intros [H|H]; [by apply lang_alt_l|by apply lang_alt_r].
Qed.

Lemma lang_eps_inv (s : string) : lang Eps s ↔ s = "".
Proof. split; [by inversion 1|intros ->; constructor]. Qed.

Lemma in_range_same (c d : ascii) : Str.in_range c c d = true ↔ d = c.
Proof.
  unfold Str.in_range, Str.code. rewrite andb_true_iff, !N.leb_le. split.
  - intros [H1 H2]. assert (N_of_ascii d = N_of_ascii c) as H by lia.
    by rewrite <- (ascii_N_embedding d), H, ascii_N_embedding.
  - intros ->. lia.
Qed.

Lemma lang_lit (c : ascii) (s : string) : lang (lit c) s ↔ s = String c "".
Proof.
  split.
  - inversion 1 as [|? d Hd| | | | |]; subst. unfold in_class in Hd. simpl in Hd.
    rewrite orb_false_r in Hd. by apply in_range_same in Hd as ->.
  - intros ->. constructor. unfold in_class. simpl. rewrite orb_false_r.
    by apply in_range_same.
Qed.

Lemma lang_word (w s : string) : lang (word w) s ↔ s = w.
Proof.
  revert s. induction w as [|c w IH]; intros s; simpl.
  - apply lang_eps_inv.
  - rewrite lang_cat_inv. split.
    + intros (s1 & s2 & -> & ->%lang_lit & ->%IH). done.
    + intros ->. exists (String c ""), w. split_and!; [done|by apply lang_lit|by apply IH].
Qed.

Lemma lang_digit (s : string) : lang digit s ↔ ∃ c, s = String c "" ∧ is_digit c.
Proof.
  split.
  - inversion 1 as [|? d Hd| | | | |]; subst. unfold in_class in Hd. simpl in Hd.
    rewrite orb_false_r in Hd. eauto.
  - intros (c & -> & Hc). constructor. unfold in_class. simpl. by rewrite orb_false_r.
Qed.

Lemma to_list_app (s t : string) : Str.to_list (s +:+ t) = Str.to_list s ++ Str.to_list t.
Proof. induction s as [|c s IH]; [done|]. rewrite app_cons. simpl. by rewrite IH. Qed.

Lemma lang_star_digit (s : string) :
  lang (Star digit) s ↔ Forall is_digit (Str.to_list s).
Proof.
  split.
  - intros H. remember (Star digit) as r eqn:Hr.
    induction H as [| | | | |r'|r' s1 s2 H1 _ H2 IH2]; try done.
    injection Hr as ->. apply lang_digit in H1 as (c & -> & Hc).
    rewrite app_cons. simpl. constructor; [done|]. by apply IH2.
  - induction s as [|c s IH]; simpl; [constructor|].
    intros [Hc Hs]%Forall_cons. change (String c s) with (String c "" +:+ s).
    constructor; [apply lang_digit; eauto|auto].
Qed.

Lemma lang_plus_digit (s : string) : lang (plus digit) s ↔ digits s.
Proof.
  unfold plus, digits. rewrite lang_cat_inv. split.
  - intros (s1 & s2 & -> & (c & -> & Hc)%lang_digit & Hs%lang_star_digit).
    rewrite app_cons. split; [done|]. simpl. by constructor.
  - intros [Hne Hall]. destruct s as [|c s]; [done|].
    simpl in Hall. apply Forall_cons in Hall as [Hc Hs].
    exists (String c ""), s. split_and!; [done| |by apply lang_star_digit].
    apply lang_digit. eauto.
Qed.

(** X10.  [validateKubernetesVersion] accepts exactly the versions made of
    [v], a non-empty run of decimal digits and, optionally, [alpha] or
    [beta] followed by another non-empty run of digits. *)
Theorem kubernetes_versions_accepted (version : string) :
  validateKubernetesVersion version = None ↔
  ∃ major, digits major
    ∧ (version = "v" +:+ major
       ∨ ∃ stage minor, (stage = "alpha" ∨ stage = "beta") ∧ digits minor
           ∧ version = "v" +:+ major +:+ stage +:+ minor).
Proof.
  unfold validateKubernetesVersion.
  destruct (MatchString kubernetesVersionRegex version) eqn:Hm; simpl.
  - apply MatchString_lang in Hm. split; [intros _|done].
    unfold kubernetesVersionRegex, opt in Hm.
    apply lang_cat_inv in Hm as (s1 & s2 & -> & ->%lang_lit & Hm).
    apply lang_cat_inv in Hm as (major & s3 & -> & Hmaj%lang_plus_digit & Hm).
    exists major. split; [done|].
    apply lang_alt_inv in Hm as [Hm| ->%lang_eps_inv]; [|left; by rewrite app_nil_r].
    apply lang_cat_inv in Hm as (stage & minor & -> & Hst & Hmin%lang_plus_digit).
    right. exists stage, minor. split_and!; [|done..].
    apply lang_alt_inv in Hst as [->%lang_word| ->%lang_word]; auto.
  - split; [done|]. intros (major & Hmaj & Hv).
    assert (MatchString kubernetesVersionRegex version = true) as H; [|congruence].
    apply MatchString_lang. unfold kubernetesVersionRegex, opt.
    apply lang_cat_inv. exists "v".
    destruct Hv as [->|(stage & minor & Hst & Hmin & ->)].
    + exists major. split_and!; [done|by apply lang_lit|].
      apply lang_cat_inv. exists major, "". split_and!.
      * by rewrite app_nil_r.
      * by apply lang_plus_digit.
      * apply lang_alt_r. constructor.
    + exists (major +:+ stage +:+ minor). split_and!; [done|by apply lang_lit|].
      apply lang_cat_inv. exists major, (stage +:+ minor).
      split_and!; [done|by apply lang_plus_digit|].
      apply lang_alt_l, lang_cat_inv. exists stage, minor.
      split_and!; [done| |by apply lang_plus_digit].
      destruct Hst as [-> | ->]; [apply lang_alt_l|apply lang_alt_r]; by apply lang_word.
Qed.

Example version_examples :
  validateKubernetesVersion "v1" = None
  ∧ validateKubernetesVersion "v1beta1" = None
  ∧ validateKubernetesVersion "v2alpha12" = None
  ∧ validateKubernetesVersion "v1beta" = Some "version v1beta is not a valid Kubernetes version"
  ∧ validateKubernetesVersion "1" = Some "version 1 is not a valid Kubernetes version"
  ∧ validateKubernetesVersion "v1gamma1" = Some "version v1gamma1 is not a valid Kubernetes version".
Proof. vm_compute. split_and!; reflexivity. Qed.

(** *** The structure of a Kubernetes object *)

Section WithParser.
Variable parseGroupVersion : string → GroupVersion + string.

Local Ltac reject :=
  split; [done|]; intros (? & ? & ? & ? & ? & ? & [?|?] & ? & ?); simplify_eq; congruence.

(** X11.  [validateKubernetesObjectStructure] returns [nil] exactly when
    [apiVersion] is a string that parses to a group version whose version
    is empty or a valid Kubernetes version, [kind] is a string and
    [metadata] is a map. *)
Theorem object_structure_accepted (obj : gmap string value) :
  validateKubernetesObjectStructure parseGroupVersion obj = None ↔
  ∃ apiVersion groupVersion kind metadata,
    obj !! "apiVersion" = Some (VString apiVersion)
    ∧ parseGroupVersion apiVersion = inl groupVersion
    ∧ (Version groupVersion = ""
       ∨ validateKubernetesVersion (Version groupVersion) = None)
    ∧ obj !! "kind" = Some (VString kind)
    ∧ obj !! "metadata" = Some (VMap metadata).
Proof.
  unfold validateKubernetesObjectStructure.
  destruct (obj !! "apiVersion") as [av|] eqn:Hav; [|reject].
  destruct av as [| | |avs| | | | | |]; try reject.
  destruct (parseGroupVersion avs) as [gv|e] eqn:Hgv; [|reject].
  destruct (decide (Version gv = "")) as [Hv|Hv].
  - rewrite bool_decide_eq_false_2 by (intros ?; done).
    destruct (obj !! "kind") as [[| | |k| | | | | |]|]; try reject.
    destruct (obj !! "metadata") as [[|m| | | | | | | |]|]; try reject.
    split; [intros _|done]. exists avs, gv, k, m. auto.
  - rewrite bool_decide_eq_true_2 by done.
    destruct (validateKubernetesVersion (Version gv)) as [e|] eqn:Hver; [reject|].
    destruct (obj !! "kind") as [[| | |k| | | | | |]|]; try reject.
    destruct (obj !! "metadata") as [[|m| | | | | | | |]|]; try reject.
    split; [intros _|done]. exists avs, gv, k, m. auto.
Qed.

(** The checks are made in a fixed order, so the first missing or
    ill-typed field among [apiVersion], [kind] and [metadata] decides the
    message: without [apiVersion] the error is "apiVersion field not found"
    whatever else the object holds, and an object with a valid
    [apiVersion] and no [kind] is told so even if [metadata] is missing
    too. *)
Theorem object_structure_first_error (obj : gmap string value) :
  (obj !! "apiVersion" = None →
     validateKubernetesObjectStructure parseGroupVersion obj
     = Some "apiVersion field not found")
  ∧ (∀ apiVersion groupVersion,
       obj !! "apiVersion" = Some (VString apiVersion) →
       parseGroupVersion apiVersion = inl groupVersion →
       Version groupVersion = "" ∨ validateKubernetesVersion (Version groupVersion) = None →
       obj !! "kind" = None →
       validateKubernetesObjectStructure parseGroupVersion obj
       = Some "kind field not found")
  ∧ (∀ apiVersion err,
       obj !! "apiVersion" = Some (VString apiVersion) →
       parseGroupVersion apiVersion = inr err →
       validateKubernetesObjectStructure parseGroupVersion obj
       = Some ("apiVersion field is not a valid Kubernetes group version: " +:+ err)).
Proof.
  unfold validateKubernetesObjectStructure. split_and!.
  - by intros ->.
  - intros av gv -> -> Hv ->. destruct (decide (Version gv = "")) as [Hz|Hz].
    + by rewrite bool_decide_eq_false_2 by (intros ?; done).
    + rewrite bool_decide_eq_true_2 by done. by destruct Hv as [?| ->].
  - by intros av e -> ->.
Qed.

End WithParser.

Lemma object_structure_accepted_witness :
  validateKubernetesObjectStructure ParseGroupVersion
    (list_to_map [ ("apiVersion", VString "apps/v1"); ("kind", VString "Deployment");
                   ("metadata", VMap [("name", VString "web")]) ]) = None.
Proof.
  apply (object_structure_accepted ParseGroupVersion).
  exists "apps/v1", {| Group := "apps"; Version := "v1" |}, "Deployment",
    [("name", VString "web")].
  split_and!; try (vm_compute; reflexivity). right. vm_compute. reflexivity.
Defined.

Lemma object_structure_first_error_witness :
  validateKubernetesObjectStructure ParseGroupVersion
    (list_to_map [ ("apiVersion", VString "v1") ]) = Some "kind field not found".
Proof.
  apply (proj1 (proj2 (object_structure_first_error ParseGroupVersion
                         (list_to_map [ ("apiVersion", VString "v1") ])))
           "v1" {| Group := ""; Version := "v1" |}).
  - vm_compute. reflexivity.
  - vm_compute. reflexivity.
  - right. vm_compute. reflexivity.
  - vm_compute. reflexivity.
Defined.

Example object_structure_examples :
  validateKubernetesObjectStructure ParseGroupVersion
    (list_to_map [ ("apiVersion", VString "apps/v1/x"); ("kind", VString "Deployment") ])
  = Some "apiVersion field is not a valid Kubernetes group version: unexpected GroupVersion string: apps/v1/x"
  ∧ validateKubernetesObjectStructure ParseGroupVersion
      (list_to_map [ ("apiVersion", VString "apps/one"); ("kind", VString "Deployment") ])
    = Some "apiVersion field does not have a valid version: version one is not a valid Kubernetes version"
  ∧ validateKubernetesObjectStructure ParseGroupVersion
      (list_to_map [ ("apiVersion", VInt 1) ])
    = Some "apiVersion field is not a string".
Proof. vm_compute. split_and!; reflexivity. Qed.

End ObjectsProps.

(** ** The CEL environment *)

Module CelProps.
Import Cel.

Section WithCel.
Variable celEnvOption : Type.
Variable celEnv : Type.
Variable extLists extStrings : celEnvOption.
Variable celVariableAny : string → celEnvOption.
Variable celNewEnv : list celEnvOption → celEnv + string.

Local Abbreviation DefaultEnvironment :=
  (Cel.DefaultEnvironment celEnvOption celEnv extLists extStrings celVariableAny celNewEnv).

Lemma declarations_loop (names : list string) (declarations : list celEnvOption) :
  foldl (λ declarations name, declarations ++ [celVariableAny name]) declarations names
  = declarations ++ (celVariableAny <$> names).
Proof.
  revert declarations. induction names as [|n names IH]; intros ds; simpl.
  - by rewrite app_nil_r.
  - rewrite IH. by rewrite <- (assoc_L (++)).
Qed.

Lemma options_loop (calls : list (option_call celEnvOption)) (opts : envOptions celEnvOption) :
  resourceIDs _ (foldl (λ opts opt, opt opts) opts (call _ <$> calls))
  = resourceIDs _ opts ++ concat (ids_of_call _ <$> calls).
Proof.
  revert opts. induction calls as [|c calls IH]; intros opts; simpl.
  - by rewrite app_nil_r.
  - rewrite IH. destruct c; simpl; [by rewrite <- (assoc_L (++))|done].
Qed.

(** X12.  [DefaultEnvironment] builds the environment from the two
    standard libraries followed by one variable of type [any] per resource
    id, in the order the [WithResourceIDs] options give them.  Declarations
    passed with [WithCustomDeclarations] are collected and never handed to
    the environment. *)
Theorem DefaultEnvironment_declarations (calls : list (option_call celEnvOption)) :
  DefaultEnvironment (call _ <$> calls)
  = celNewEnv ([extLists; extStrings]
               ++ (celVariableAny <$> concat (ids_of_call _ <$> calls))).
Proof.
  unfold Cel.DefaultEnvironment. by rewrite declarations_loop, options_loop.
Qed.

End WithCel.

Example DefaultEnvironment_example :
  Cel.DefaultEnvironment string (list string) "ext.Lists" "ext.Strings" (λ n, "var " +:+ n) inl
    [ Cel.WithResourceIDs _ ["db"; "web"];
      Cel.WithCustomDeclarations _ ["custom"];
      Cel.WithResourceIDs _ ["cache"] ]
  = inl ["ext.Lists"; "ext.Strings"; "var db"; "var web"; "var cache"].
Proof. reflexivity. Qed.

End CelProps.

(** ** Resource identifiers, once more *)

Module GraphMoreProps.
Import Graph GraphProps.

(** X13.  [isValidKindName] accepts exactly the names made of an
    upper-case ASCII letter followed by ASCII letters and digits, and
    [isValidResourceID] the ones that start with a lower-case letter
    instead; the empty name is neither. *)
Theorem camel_case_names (name : string) :
  (isValidKindName name = true ↔
     ∃ c rest, name = String c rest ∧ Str.in_range "A" "Z" c = true
       ∧ Forall (λ d, Str.in_range "a" "z" d = true ∨ Str.in_range "A" "Z" d = true
                      ∨ Str.in_range "0" "9" d = true) (Str.to_list rest))
  ∧ (isValidResourceID name = true ↔
     ∃ c rest, name = String c rest ∧ Str.in_range "a" "z" c = true
       ∧ Forall (λ d, Str.in_range "a" "z" d = true ∨ Str.in_range "A" "Z" d = true
                      ∨ Str.in_range "0" "9" d = true) (Str.to_list rest)).
Proof.
  split; [|apply isValidResourceID_spec].
  unfold isValidKindName, upperCamelCaseRegex. rewrite MatchString_camel.
  destruct name as [|c rest].
  - split; [done|]. by intros (? & ? & ? & _).
  - rewrite andb_true_iff, forallb_forall. unfold in_class at 1. simpl.
    rewrite orb_false_r. split.
    + intros [Hc Hrest]. exists c, rest. split_and!; [done..|].
      apply Forall_forall. intros d Hd%list_elem_of_In. apply Hrest in Hd.
      unfold in_class in Hd. simpl in Hd. rewrite orb_false_r in Hd.
      apply orb_true_iff in Hd as [?|Hd]; [auto|].
      apply orb_true_iff in Hd as [?|?]; auto.
    + intros (c' & rest' & [= <- <-] & Hc & Hrest). split; [done|].
      intros d Hd%list_elem_of_In. rewrite Forall_forall in Hrest.
      apply Hrest in Hd. unfold in_class. simpl. rewrite orb_false_r.
      rewrite !orb_true_iff. tauto.
Qed.

Lemma validateResourceIDs_loop_Some (seen : gset string) (rs : list Resource) (e : string) :
  validateResourceIDs_loop seen rs = Some e →
  ∃ pre res post,
    rs = pre ++ res :: post
    ∧ validateResourceIDs_loop seen pre = None
    ∧ ((ID res ∈ reservedKeyWords
        ∧ e = ("id " +:+ ID res +:+ " is a reserved keyword in KRO"))
       ∨ ((ID res ∉ reservedKeyWords) ∧ isValidResourceID (ID res) = false
          ∧ e = ("id " +:+ ID res +:+ " is not a valid KRO resource id: must be lower camelCase"))
       ∨ ((ID res ∉ reservedKeyWords) ∧ isValidResourceID (ID res) = true
          ∧ (ID res ∈ seen ∨ ID res ∈ ID <$> pre)
          ∧ e = ("found duplicate resource IDs " +:+ ID res))).
Proof.
  revert seen. induction rs as [|res rs IH]; intros seen; simpl; [done|].
  destruct (isKROReservedWord (ID res)) eqn:Hres.
  { intros [= <-]. exists [], res, rs. split_and!; [done..|].
    left. split; [by apply isKROReservedWord_spec|done]. }
  assert (ID res ∉ reservedKeyWords) as Hnres.
  { intros Hin%isKROReservedWord_spec. congruence. }
  destruct (isValidResourceID (ID res)) eqn:Hval; simpl.
  2:{ intros [= <-]. exists [], res, rs. split_and!; [done..|]. right. left. done. }
  destruct (decide (ID res ∈ seen)) as [Hin|Hnin].
  { intros [= <-]. exists [], res, rs. split_and!; [done..|]. right. right. auto. }
  intros (pre & res' & post & -> & Hpre & Hcases)%IH.
  exists (res :: pre), res', post. split_and!; [done| |].
  - simpl. rewrite Hres, Hval. simpl. by rewrite decide_False.
  - destruct Hcases as [?|[?|(? & ? & Hdup & ?)]]; [by left|by right; left|].
    right. right. split_and!; [done..| |done].
    destruct Hdup as [[->%elem_of_singleton|?]%elem_of_union|?].
    + right. left.
    + by left.
    + right. by right.
Qed.

(** X14.  When [validateResourceIDs] fails, its message is about the first
    resource, in declaration order, that fails a check; the identifiers
    before it pass all three.  The reserved-word check comes first, then
    the naming pattern, then the comparison with the identifiers before. *)
Theorem validateResourceIDs_first_offender (rg : ResourceGroup) (e : string) :
  validateResourceIDs rg = Some e →
  ∃ pre res post,
    Resources (Spec rg) = pre ++ res :: post
    ∧ validateResourceIDs_loop ∅ pre = None
    ∧ ((ID res ∈ reservedKeyWords
        ∧ e = ("id " +:+ ID res +:+ " is a reserved keyword in KRO"))
       ∨ ((ID res ∉ reservedKeyWords) ∧ isValidResourceID (ID res) = false
          ∧ e = ("id " +:+ ID res +:+ " is not a valid KRO resource id: must be lower camelCase"))
       ∨ ((ID res ∉ reservedKeyWords) ∧ isValidResourceID (ID res) = true
          ∧ ID res ∈ ID <$> pre
          ∧ e = ("found duplicate resource IDs " +:+ ID res))).
Proof.
  intros (pre & res & post & Hrs & Hpre & Hcases)%validateResourceIDs_loop_Some.
  exists pre, res, post. split_and!; [done..|].
  destruct Hcases as [?|[?|(? & ? & [Hin|?] & ?)]]; auto.
  - by apply not_elem_of_empty in Hin.
  - right. right. auto.
Qed.

Lemma validateResourceIDs_first_offender_witness :
  ∃ pre res post,
    [ {| ID := "db" |}; {| ID := "web" |}; {| ID := "db" |}; {| ID := "kind" |} ]
    = pre ++ res :: post
    ∧ validateResourceIDs_loop ∅ pre = None
    ∧ ((ID res ∈ reservedKeyWords
        ∧ "found duplicate resource IDs db" = ("id " +:+ ID res +:+ " is a reserved keyword in KRO"))
       ∨ ((ID res ∉ reservedKeyWords) ∧ isValidResourceID (ID res) = false
          ∧ "found duplicate resource IDs db"
            = ("id " +:+ ID res +:+ " is not a valid KRO resource id: must be lower camelCase"))
       ∨ ((ID res ∉ reservedKeyWords) ∧ isValidResourceID (ID res) = true
          ∧ ID res ∈ ID <$> pre
          ∧ "found duplicate resource IDs db" = ("found duplicate resource IDs " +:+ ID res))).
Proof.
  apply (validateResourceIDs_first_offender (group "App" ["db"; "web"; "db"; "kind"])).
  vm_compute. reflexivity.
Defined.

End GraphMoreProps.

(** ** Trimming the delimiters *)

Module TrimProps.
Import Parser Reference Coverage ObjectsProps.

Lemma rev_app_acc (s u : string) : String.rev_app s u = String.rev_app s "" +:+ u.
Proof.
  revert u. induction s as [|a s IH]; intros u; simpl; [done|].
  rewrite (IH (String a u)), (IH (String a "")). by rewrite app_assoc.
Qed.

Lemma rev_cons (c : ascii) (s : string) :
  String.rev (String c s) = String.rev s +:+ String c "".
Proof. unfold String.rev. simpl. apply rev_app_acc. Qed.

Lemma rev_app_distr (s t : string) :
  String.rev (s +:+ t) = String.rev t +:+ String.rev s.
Proof.
  induction s as [|a s IH].
  - change ("" +:+ t) with t. by rewrite app_nil_r.
  - rewrite app_cons, !rev_cons, IH. by rewrite app_assoc.
Qed.

Lemma rev_involutive (s : string) : String.rev (String.rev s) = s.
Proof.
  induction s as [|a s IH]; [done|].
  rewrite rev_cons, rev_app_distr, IH. done.
Qed.

Lemma trim_left_keeps (cutset s : string) :
  (∀ c s', s = String c s' → Str.contains_char c cutset = false) →
  Str.trim_left cutset s = s.
Proof. destruct s as [|c s]; [done|]. intros H. simpl. by rewrite (H c s). Qed.

Lemma trim_left_head (cutset s : string) (c : ascii) (r : string) :
  Str.trim_left cutset s = String c r → Str.contains_char c cutset = false.
Proof.
  induction s as [|d s IH]; simpl; [done|].
  destruct (Str.contains_char d cutset) eqn:Hd; [done|]. by intros [= <- _].
Qed.

Lemma trim_left_suffix (cutset s : string) : ∃ z, s = z +:+ Str.trim_left cutset s.
Proof.
  induction s as [|d s [z IH]]; simpl; [by exists ""|].
  destruct (Str.contains_char d cutset).
  - exists (String d z). by rewrite app_cons, <- IH.
  - by exists "".
Qed.

Lemma trim_right_prefix (cutset s : string) : ∃ z, s = Str.trim_right cutset s +:+ z.
Proof.
  unfold Str.trim_right.
  destruct (trim_left_suffix cutset (String.rev s)) as [z Hz].
  exists (String.rev z).
  rewrite <- rev_app_distr, <- Hz. by rewrite rev_involutive.
Qed.

Lemma trim_right_keeps (cutset s : string) :
  (∀ s' c, s = s' +:+ String c "" → Str.contains_char c cutset = false) →
  Str.trim_right cutset s = s.
Proof.
  intros H. unfold Str.trim_right. rewrite trim_left_keeps; [apply rev_involutive|].
  intros c r Hr. apply (H (String.rev r)).
  by rewrite <- (rev_involutive s), Hr, rev_cons.
Qed.

Lemma trim_right_last (cutset s r : string) (c : ascii) :
  Str.trim_right cutset s = r +:+ String c "" → Str.contains_char c cutset = false.
Proof.
  unfold Str.trim_right. intros H.
  apply (f_equal String.rev) in H. rewrite rev_involutive, rev_app_distr in H.
  change (String.rev (String c "") +:+ String.rev r) with (String c (String.rev r)) in H.
  by eapply trim_left_head.
Qed.

Lemma trim_right_snoc (cutset s : string) (c : ascii) :
  Str.contains_char c cutset = true →
  Str.trim_right cutset (s +:+ String c "") = Str.trim_right cutset s.
Proof.
  intros Hc. unfold Str.trim_right. rewrite rev_app_distr.
  change (String.rev (String c "") +:+ String.rev s) with (String c (String.rev s)).
  simpl. by rewrite Hc.
Qed.

(** Trimming [${e}] with the cutset [${}] gives [e] exactly when [e]
    neither begins nor ends with a byte of the cutset. *)
Lemma Trim_delimiters (e : string) :
  Str.Trim ("${" +:+ e +:+ "}") "${}" = e ↔ clean_ends e.
Proof.
  unfold Str.Trim.
  change (Str.trim_left "${}" ("${" +:+ e +:+ "}"))
    with (Str.trim_left "${}" (e +:+ "}")).
  split.
  - intros H. split.
    + intros c e' ->.
      destruct (trim_right_prefix "${}" (Str.trim_left "${}" (String c e' +:+ "}")))
        as [z Hz]. rewrite H, app_cons in Hz. by eapply trim_left_head.
    + intros e' c ->. by eapply trim_right_last.
  - intros [Hfirst Hlast]. destruct e as [|c e].
    + reflexivity.
    + rewrite app_cons. rewrite trim_left_keeps.
      2:{ intros d s' [= <- _]. by apply (Hfirst c e). }
      rewrite <- app_cons, trim_right_snoc by reflexivity.
      by apply trim_right_keeps.
Qed.

Section WithHelpers.
Variable isStandaloneExpression : string → outcome bool.
Variable extractExpressions : string → outcome (list string).
Variable fmtv : value → string.

(** X15.  For a standalone expression [${e}], the descriptor that
    [parseString] returns holds the text [e] between the delimiters exactly
    when [e] neither begins nor ends with one of the bytes [$], [{] and
    [}]; otherwise [strings.Trim] has removed more than the delimiters. *)
Theorem standalone_expression_exact (e : string) (schema : loc)
    (path expectedType : string) (σ : store) :
  isStandaloneExpression ("${" +:+ e +:+ "}") = Ok true →
  (Parser.parseString isStandaloneExpression extractExpressions fmtv
     ("${" +:+ e +:+ "}") schema path expectedType σ
   = (σ, Ok [ {| Path := path; Expressions := [e]; ExpectedType := expectedType;
                 ExpectedSchema := Some schema; StandaloneExpression := true |} ])
   ↔ clean_ends e).
Proof.
  intros Hs. unfold Parser.parseString, mbind, M_bind, bind, lift, ret. rewrite Hs.
  rewrite <- Trim_delimiters. split; [by intros [= ->]|by intros ->].
Qed.

End WithHelpers.

Lemma standalone_expression_exact_witness :
  Scanner.parseString "${db.status.port}" 0 "spec.port" "integer" [typed "integer"]
  = ([typed "integer"],
     Ok [ {| Path := "spec.port"; Expressions := ["db.status.port"];
             ExpectedType := "integer"; ExpectedSchema := Some 0;
             StandaloneExpression := true |} ])
  ↔ clean_ends "db.status.port".
Proof.
  apply (standalone_expression_exact
           Scanner.isStandaloneExpression Scanner.extractExpressions Scanner.fmtv
           "db.status.port" 0 "spec.port" "integer" [typed "integer"]).
  vm_compute. reflexivity.
Defined.

End TrimProps.

(** ** Paths can be read back *)

Module PathProps.
Import Parser Coverage ObjectsProps.

Lemma to_list_inj (s t : string) : Str.to_list s = Str.to_list t → s = t.
Proof.
  revert t. induction s as [|c s IH]; intros [|d t]; simpl; try done.
  intros [= -> H]. f_equal. by apply IH.
Qed.

Lemma contains_char_elem (c : ascii) (s : string) :
  Str.contains_char c s = true ↔ c ∈ Str.to_list s.
Proof.
  induction s as [|d s IH]; simpl.
  - split; [done|]. by intros ?%elem_of_nil.
  - rewrite elem_of_cons. destruct (decide (c = d)) as [->|Hne].
    + split; [intros _; by left|done].
    + rewrite IH. split; [auto|]. by intros [?|?].
Qed.

Lemma contains_char_not_elem (c : ascii) (s : string) :
  Str.contains_char c s = false ↔ c ∉ Str.to_list s.
Proof.
  rewrite <- contains_char_elem. by destruct (Str.contains_char c s).
Qed.

(** *** [strconv.Quote] loses nothing *)

Lemma unquote_quote_byte (c : ascii) (r : string) :
  unquote_byte (quote_byte c +:+ r) = Some (c, r).
Proof. destruct c as [[] [] [] [] [] [] [] []]; vm_compute; reflexivity. Qed.

Lemma quote_body_inj (n1 n2 : string) : quote_body n1 = quote_body n2 → n1 = n2.
Proof.
  revert n2. induction n1 as [|c1 n1 IH]; intros [|c2 n2]; simpl; intros H.
  - done.
  - apply (f_equal unquote_byte) in H. by rewrite unquote_quote_byte in H.
  - apply (f_equal unquote_byte) in H. by rewrite unquote_quote_byte in H.
  - apply (f_equal unquote_byte) in H. rewrite !unquote_quote_byte in H.
    injection H as -> H. f_equal. by apply IH.
Qed.

Lemma quote_byte_no_dquote (c : ascii) :
  c ≠ Str.dquote → Str.dquote ∉ Str.to_list (quote_byte c).
Proof.
  intros Hc. apply contains_char_not_elem. revert Hc.
  destruct c as [[] [] [] [] [] [] [] []]; vm_compute; intros H; try reflexivity;
    by destruct H.
Qed.

Lemma quote_body_no_dquote (n : string) :
  Str.dquote ∉ Str.to_list n → Str.dquote ∉ Str.to_list (quote_body n).
Proof.
  induction n as [|c n IH]; simpl; [done|].
  rewrite not_elem_of_cons. intros [Hc Hn].
  rewrite to_list_app, elem_of_app. intros [H|H].
  - by apply (quote_byte_no_dquote c).
  - by apply IH.
Qed.

(** *** Splitting a path at its last separator *)

Lemma split_at_last {A} (x : A) (l1 l2 r1 r2 : list A) :
  x ∉ r1 → x ∉ r2 → l1 ++ x :: r1 = l2 ++ x :: r2 → l1 = l2 ∧ r1 = r2.
Proof.
  revert l2. induction l1 as [|a l1 IH]; intros [|b l2] H1 H2; simpl.
  - by intros [= ->].
  - intros [= <- ->]. destruct H1. apply elem_of_app. right. left.
  - intros [= -> <-]. destruct H2. apply elem_of_app. right. left.
  - intros [= -> H]. destruct (IH l2 H1 H2 H) as [-> ->]. done.
Qed.

Definition bracketed (p body : list ascii) : list ascii :=
  p ++ "["%char :: Str.dquote :: body ++ [Str.dquote; "]"%char].

Definition dotted (p n : list ascii) : list ascii := p ++ "."%char :: n.

Lemma joinPathAndFieldName_With (path fieldName : string) :
  joinPathAndFieldName path fieldName = joinPathAndFieldNameWith Quote path fieldName.
Proof. reflexivity. Qed.

Lemma to_list_joinPathAndFieldNameWith (quote : string → string)
    (path fieldName body : string) :
  quote fieldName = Str.char Str.dquote +:+ body +:+ Str.char Str.dquote →
  ((fieldName = "" ∨ "."%char ∈ Str.to_list fieldName)
   ∧ Str.to_list (joinPathAndFieldNameWith quote path fieldName)
     = bracketed (Str.to_list path) (Str.to_list body))
  ∨ (fieldName ≠ "" ∧ ("."%char ∉ Str.to_list fieldName) ∧ path = ""
     ∧ joinPathAndFieldNameWith quote path fieldName = fieldName)
  ∨ (fieldName ≠ "" ∧ ("."%char ∉ Str.to_list fieldName) ∧ path ≠ ""
     ∧ Str.to_list (joinPathAndFieldNameWith quote path fieldName)
       = dotted (Str.to_list path) (Str.to_list fieldName)).
Proof.
  intros Hquote. unfold joinPathAndFieldNameWith.
  destruct (bool_decide (fieldName = "") || Str.contains_char "." fieldName) eqn:Hc.
  - left. split.
    + apply orb_true_iff in Hc as [Hc%bool_decide_eq_true|Hc%contains_char_elem]; auto.
    + rewrite Hquote. unfold bracketed. rewrite !to_list_app. simpl.
      by rewrite <- (assoc_L (++)).
  - apply orb_false_iff in Hc as [Hn%bool_decide_eq_false Hd%contains_char_not_elem].
    right. destruct (decide (path = "")) as [->|Hp]; [left; done|right].
    split_and!; [done..|]. unfold dotted. by rewrite !to_list_app.
Qed.

Lemma bracketed_inj (p1 p2 b1 b2 : list ascii) :
  Str.dquote ∉ b1 → Str.dquote ∉ b2 →
  bracketed p1 b1 = bracketed p2 b2 → p1 = p2 ∧ b1 = b2.
Proof.
  unfold bracketed. intros H1 H2 H.
  change (p1 ++ "["%char :: Str.dquote :: b1 ++ [Str.dquote; "]"%char])
    with (p1 ++ ["["%char] ++ [Str.dquote] ++ b1 ++ [Str.dquote] ++ ["]"%char]) in H.
  change (p2 ++ "["%char :: Str.dquote :: b2 ++ [Str.dquote; "]"%char])
    with (p2 ++ ["["%char] ++ [Str.dquote] ++ b2 ++ [Str.dquote] ++ ["]"%char]) in H.
  rewrite !(assoc_L (++)) in H.
  apply app_inj_tail in H as [H _]. apply app_inj_tail in H as [H _].
  rewrite <- !(assoc_L (++) _ [Str.dquote] _) in H.
  apply split_at_last in H as [H ->]; [|done..].
  by apply app_inj_tail in H as [-> _].
Qed.

Lemma bracketed_not_dotted (p1 p2 b n : list ascii) :
  n ≠ [] → Str.dquote ∉ n → bracketed p1 b ≠ dotted p2 n.
Proof.
  unfold bracketed, dotted. intros Hn Hq H.
  destruct (exists_last Hn) as (n' & z & ->).
  change (p1 ++ "["%char :: Str.dquote :: b ++ [Str.dquote; "]"%char])
    with (p1 ++ ["["%char; Str.dquote] ++ b ++ [Str.dquote] ++ ["]"%char]) in H.
  change (p2 ++ "."%char :: n' ++ [z]) with (p2 ++ ("."%char :: n') ++ [z]) in H.
  rewrite !(assoc_L (++)) in H. apply app_inj_tail in H as [H _].
  destruct n' as [|w n'] using rev_ind.
  - apply app_inj_tail in H as [_ [=]].
  - change (p2 ++ "."%char :: n' ++ [w]) with (p2 ++ ("."%char :: n') ++ [w]) in H.
    rewrite !(assoc_L (++)) in H. apply app_inj_tail in H as [_ <-].
    destruct Hq. apply elem_of_app. left. apply elem_of_app. right. left.
Qed.

Lemma Quote_quotes : quotes Quote.
Proof.
  split.
  - intros n1 n2 H. apply quote_body_inj, to_list_inj.
    apply (f_equal Str.to_list) in H. unfold Quote in H.
    rewrite !to_list_app in H. simpl in H. injection H as H.
    by apply app_inj_tail in H as [H _].
  - intros n. exists (quote_body n). split; [done|].
    rewrite !contains_char_not_elem. apply quote_body_no_dquote.
Qed.

(** X16.  Whatever the [%q] verb writes, as long as it loses nothing and
    puts between two double quotes a text that has a double quote only
    if the name has one, as [strconv.Quote] does: for field names without
    a double quote, the path that [joinPathAndFieldName] builds determines
    both the parent path and the field name, and two pairs with the same
    encoding are equal.  The parent path may be any string. *)
Theorem joinPathAndFieldName_injective (quote : string → string)
    (path1 name1 path2 name2 : string) :
  quotes quote →
  Str.contains_char Str.dquote name1 = false →
  Str.contains_char Str.dquote name2 = false →
  joinPathAndFieldNameWith quote path1 name1 = joinPathAndFieldNameWith quote path2 name2 →
  path1 = path2 ∧ name1 = name2.
Proof.
  intros [Hinj Hshape] Hq1 Hq2 Heq.
  destruct (Hshape name1) as (b1 & Hb1 & Hfree1), (Hshape name2) as (b2 & Hb2 & Hfree2).
  specialize (Hfree1 Hq1). specialize (Hfree2 Hq2).
  apply contains_char_not_elem in Hq1, Hq2, Hfree1, Hfree2.
  pose proof (f_equal Str.to_list Heq) as Hl.
  assert (∀ n, n ≠ "" → Str.to_list n ≠ []) as Hne by (by intros []).
  destruct (to_list_joinPathAndFieldNameWith quote path1 name1 b1 Hb1)
    as [[_ E1]|[(Hn1 & Hd1 & -> & E1)|(Hn1 & Hd1 & Hp1 & E1)]],
     (to_list_joinPathAndFieldNameWith quote path2 name2 b2 Hb2)
    as [[_ E2]|[(Hn2 & Hd2 & -> & E2)|(Hn2 & Hd2 & Hp2 & E2)]].
  - rewrite E1, E2 in Hl.
    apply bracketed_inj in Hl as [Hp Hb]; [|done..].
    split; [by apply to_list_inj|]. apply Hinj.
    rewrite Hb1, Hb2. by rewrite (to_list_inj _ _ Hb).
  - rewrite E2 in Heq. rewrite <- Heq, E1 in Hq2. destruct Hq2.
    unfold bracketed. rewrite elem_of_app, !elem_of_cons. auto.
  - rewrite E1, E2 in Hl. by apply bracketed_not_dotted in Hl; auto.
  - rewrite E1 in Heq. rewrite Heq, E2 in Hq1. destruct Hq1.
    unfold bracketed. rewrite elem_of_app, !elem_of_cons. auto.
  - rewrite E1, E2 in Heq. done.
  - rewrite E1 in Heq. rewrite Heq, E2 in Hd1. destruct Hd1.
    unfold dotted. rewrite elem_of_app, elem_of_cons. auto.
  - rewrite E1, E2 in Hl. symmetry in Hl. by apply bracketed_not_dotted in Hl; auto.
  - rewrite E2 in Heq. rewrite <- Heq, E1 in Hd2. destruct Hd2.
    unfold dotted. rewrite elem_of_app, elem_of_cons. auto.
  - rewrite E1, E2 in Hl. unfold dotted in Hl.
    apply split_at_last in Hl as [Hp Hn]; [|done..].
    split; by apply to_list_inj.
Qed.

Lemma joinPathAndFieldName_injective_witness :
  "spec" = "spec" ∧ "app.kubernetes.io/name" = "app.kubernetes.io/name".
Proof.
  apply (joinPathAndFieldName_injective Quote "spec" "app.kubernetes.io/name"
           "spec" "app.kubernetes.io/name");
    [apply Quote_quotes|reflexivity..].
Defined.

End PathProps.
